(** * Credential rotation and OAuth lifecycle core: a shallow embedding

    The definitions below transcribe the Python sources of the proxy
    (rotator_library/credential_manager.py, proxy_app/main.py,
    rotator_library/providers/qwen_auth_base.py and
    rotator_library/utils/reauth_coordinator.py) into Rocq functions over
    explicit state.  Dictionaries are finite maps, sets are finite sets,
    the clock and every answer of the outside world (HTTP responses, the
    outcome of a file write, the outcome of the interactive login) are
    explicit arguments. *)

From stdpp Require Import base gmap sets list strings.
From Stdlib Require Import ZArith QArith Lqa String Ascii.

Open Scope Z_scope.

(** ** Python strings

    [str] values are modelled as [string]; only the methods used by the
    embedded code are defined, each for a non-empty pattern, which is
    the only way the sources call them. *)
Module PyStr.

(** [s.startswith(p)] *)
Fixpoint startswith (p s : string) : bool :=
  match p, s with
  | EmptyString, _ => true
  | String a p', String b s' => if Ascii.eqb a b then startswith p' s' else false
  | String _ _, EmptyString => false
  end.

(** [sub in s] *)
Fixpoint contains (sub s : string) : bool :=
  startswith sub s ||
  match s with
  | EmptyString => false
  | String _ s' => contains sub s'
  end.

(** [s[n:]] *)
Fixpoint drop (n : nat) (s : string) : string :=
  match n, s with
  | O, _ => s
  | S n', EmptyString => EmptyString
  | S n', String _ s' => drop n' s'
  end.

(** Scan of [s.replace(old, new)], left to right over non-overlapping
    occurrences; [skip] counts the characters of the occurrence found
    last that are still to be passed over. *)
Fixpoint replace_scan (old new : string) (skip : nat) (s : string) : string :=
  match s with
  | EmptyString => EmptyString
  | String c s' =>
      match skip with
      | S k => replace_scan old new k s'
      | O =>
          if startswith old s
          then new +:+ replace_scan old new (String.length old - 1) s'
          else String c (replace_scan old new 0 s')
      end
  end.

(** [s.replace(old, new)] *)
Definition replace (old new s : string) : string := replace_scan old new 0 s.

(** Scan of [s.split(sep)]: [cur] is the piece being read. *)
Fixpoint split_scan (sep : string) (skip : nat) (cur : string) (s : string)
  : list string :=
  match s with
  | EmptyString => [cur]
  | String c s' =>
      match skip with
      | S k => split_scan sep k cur s'
      | O =>
          if startswith sep s
          then cur :: split_scan sep (String.length sep - 1) EmptyString s'
          else split_scan sep 0 (cur +:+ String c EmptyString) s'
      end
  end.

(** [s.split(sep)] *)
Definition split (sep s : string) : list string := split_scan sep 0 EmptyString s.

(** [c.lower()] on an ASCII character. *)
Definition lower_ascii (c : ascii) : ascii :=
  let n := nat_of_ascii c in
  if (65 <=? n)%nat && (n <=? 90)%nat then ascii_of_nat (n + 32) else c.

(** [s.lower()] *)
Fixpoint lower (s : string) : string :=
  match s with
  | EmptyString => EmptyString
  | String c s' => String (lower_ascii c) (lower s')
  end.

End PyStr.

(** ** rotator_library/credential_manager.py *)
Module CredentialManager.

(** One turn of the loop of [_discover_api_keys] over
    [self.environment.items()]. *)
Definition discover_api_key (credentials : gmap string (list string))
    (item : string * string) : gmap string (list string) :=
  let '(key, value) := item in
  if PyStr.contains "_API_KEY" key && negb (String.eqb key "PROXY_API_KEY") then
    let provider := PyStr.lower (PyStr.replace "_API_KEY" "" key) in
    let credentials :=
      match credentials !! provider with
      | None => <[provider := []]> credentials
      | Some _ => credentials
      end in
    <[provider := default [] (credentials !! provider) ++ ["env://" +:+ key]]>
      credentials
  else credentials.

(** [CredentialManager._discover_api_keys]; the environment is the
    dictionary given to the constructor, in iteration order. *)
Definition _discover_api_keys (environment : list (string * string))
  : gmap string (list string) :=
  foldl discover_api_key ∅ environment.

End CredentialManager.

(** ** proxy_app/main.py: discovery of API keys at start-up *)
Module ProxyMain.

Definition discover_api_key (api_keys : gmap string (list string))
    (item : string * string) : gmap string (list string) :=
  let '(key, value) := item in
  if PyStr.contains "_API_KEY" key && negb (String.eqb key "PROXY_API_KEY") then
    let provider :=
      PyStr.lower (default EmptyString (head (PyStr.split "_API_KEY" key))) in
    let api_keys :=
      match api_keys !! provider with
      | None => <[provider := []]> api_keys
      | Some _ => api_keys
      end in
    <[provider := default [] (api_keys !! provider) ++ [value]]> api_keys
  else api_keys.

(** The loop over [os.environ.items()] that fills [api_keys]. *)
Definition api_keys (environ : list (string * string))
  : gmap string (list string) :=
  foldl discover_api_key ∅ environ.

End ProxyMain.

(** ** rotator_library/providers/qwen_auth_base.py *)
Module Qwen.

(** *** Data *)

(** A key of a Python dictionary holding a value of type [A]: missing,
    present with [None], or present with a value. *)
Inductive field (A : Type) : Type :=
| Absent
| Null
| Val (a : A).
Arguments Absent {A}.
Arguments Null {A}.
Arguments Val {A} a.

(** [d.get(k)] *)
Definition get {A} (f : field A) : field A :=
  match f with
  | Absent => Null
  | _ => f
  end.

(** [d.get(k, dflt)] *)
Definition get_default {A} (f dflt : field A) : field A :=
  match f with
  | Absent => dflt
  | _ => f
  end.

(** Truth value of a string-valued entry read with [d.get(k)]. *)
Definition truthy (f : field string) : bool :=
  match f with
  | Val s => negb (String.eqb s EmptyString)
  | _ => false
  end.

(** The [_proxy_metadata] dictionary of a credential. *)
Record ProxyMetadata : Type := {
  email : field string;
  last_check_timestamp : option Q;
  display_name : option string;
  loaded_from_env : bool;
  env_credential_index : option string
}.

(** A credential dictionary.  [expiry_date] is in epoch milliseconds and
    is [None] when the key is missing; [extras] holds the keys the refresh
    logic never reads ([client_id], [token_uri], [scope], ...).  The
    floating-point numbers of the source, the readings of [time.time()]
    among them, are exact rationals here. *)
Record Creds : Type := {
  access_token : field string;
  refresh_token : field string;
  expiry_date : option Q;
  resource_url : field string;
  _proxy_metadata : option ProxyMetadata;
  extras : gmap string string
}.

(** Truth value of a credential dictionary: a dictionary is false exactly
    when it has no key. *)
Definition nonempty (c : Creds) : bool :=
  match access_token c, refresh_token c, expiry_date c, resource_url c,
        _proxy_metadata c with
  | Absent, Absent, None, Absent, None => negb (bool_decide (extras c = ∅))
  | _, _, _, _, _ => true
  end.

(** The exceptions the embedded code raises or lets through.  In Python 3
    [IOError] is [OSError]. *)
Inductive exn : Type :=
| IOError
| ValueError
| KeyError
| TypeError
| AttributeError
| JSONDecodeError
| HTTPStatusError (status_code : Z)
| RequestError
| Exception_.

(** *** The adapter object and the file system it reads and writes

    [_refresh_locks_held] is the set of paths whose [asyncio.Lock] of
    [_refresh_locks] is currently held; [_refresh_queue] is the content of
    the [asyncio.Queue]; [_queue_processor_running] says that
    [_queue_processor_task] is a task that is not done.  [fs] is the file
    system: [None] at a path is a file that does not parse as JSON. *)
Record QwenAuthBase : Type := {
  _credentials_cache : gmap string Creds;
  _refresh_locks_held : gset string;
  _refresh_failures : gmap string Z;
  _next_refresh_after : gmap string Q;
  _refresh_queue : list (string * bool * bool);
  _queued_credentials : gset string;
  _unavailable_credentials : gmap string Q;
  _unavailable_ttl_seconds : Z;
  _queue_processor_running : bool;
  fs : gmap string (option Creds)
}.

(** [QwenAuthBase.__init__] over a given file system. *)
Definition init (files : gmap string (option Creds)) : QwenAuthBase := {|
  _credentials_cache := ∅;
  _refresh_locks_held := ∅;
  _refresh_failures := ∅;
  _next_refresh_after := ∅;
  _refresh_queue := [];
  _queued_credentials := ∅;
  _unavailable_credentials := ∅;
  _unavailable_ttl_seconds := 300;
  _queue_processor_running := false;
  fs := files
|}.

Definition set_credentials_cache (v : gmap string Creds) (st : QwenAuthBase) :=
  {| _credentials_cache := v;
     _refresh_locks_held := _refresh_locks_held st;
     _refresh_failures := _refresh_failures st;
     _next_refresh_after := _next_refresh_after st;
     _refresh_queue := _refresh_queue st;
     _queued_credentials := _queued_credentials st;
     _unavailable_credentials := _unavailable_credentials st;
     _unavailable_ttl_seconds := _unavailable_ttl_seconds st;
     _queue_processor_running := _queue_processor_running st;
     fs := fs st |}.

Definition set_refresh_locks_held (v : gset string) (st : QwenAuthBase) :=
  {| _credentials_cache := _credentials_cache st;
     _refresh_locks_held := v;
     _refresh_failures := _refresh_failures st;
     _next_refresh_after := _next_refresh_after st;
     _refresh_queue := _refresh_queue st;
     _queued_credentials := _queued_credentials st;
     _unavailable_credentials := _unavailable_credentials st;
     _unavailable_ttl_seconds := _unavailable_ttl_seconds st;
     _queue_processor_running := _queue_processor_running st;
     fs := fs st |}.

Definition set_refresh_failures (v : gmap string Z) (st : QwenAuthBase) :=
  {| _credentials_cache := _credentials_cache st;
     _refresh_locks_held := _refresh_locks_held st;
     _refresh_failures := v;
     _next_refresh_after := _next_refresh_after st;
     _refresh_queue := _refresh_queue st;
     _queued_credentials := _queued_credentials st;
     _unavailable_credentials := _unavailable_credentials st;
     _unavailable_ttl_seconds := _unavailable_ttl_seconds st;
     _queue_processor_running := _queue_processor_running st;
     fs := fs st |}.

Definition set_next_refresh_after (v : gmap string Q) (st : QwenAuthBase) :=
  {| _credentials_cache := _credentials_cache st;
     _refresh_locks_held := _refresh_locks_held st;
     _refresh_failures := _refresh_failures st;
     _next_refresh_after := v;
     _refresh_queue := _refresh_queue st;
     _queued_credentials := _queued_credentials st;
     _unavailable_credentials := _unavailable_credentials st;
     _unavailable_ttl_seconds := _unavailable_ttl_seconds st;
     _queue_processor_running := _queue_processor_running st;
     fs := fs st |}.

Definition set_refresh_queue (v : list (string * bool * bool)) (st : QwenAuthBase) :=
  {| _credentials_cache := _credentials_cache st;
     _refresh_locks_held := _refresh_locks_held st;
     _refresh_failures := _refresh_failures st;
     _next_refresh_after := _next_refresh_after st;
     _refresh_queue := v;
     _queued_credentials := _queued_credentials st;
     _unavailable_credentials := _unavailable_credentials st;
     _unavailable_ttl_seconds := _unavailable_ttl_seconds st;
     _queue_processor_running := _queue_processor_running st;
     fs := fs st |}.

Definition set_queued_credentials (v : gset string) (st : QwenAuthBase) :=
  {| _credentials_cache := _credentials_cache st;
     _refresh_locks_held := _refresh_locks_held st;
     _refresh_failures := _refresh_failures st;
     _next_refresh_after := _next_refresh_after st;
     _refresh_queue := _refresh_queue st;
     _queued_credentials := v;
     _unavailable_credentials := _unavailable_credentials st;
     _unavailable_ttl_seconds := _unavailable_ttl_seconds st;
     _queue_processor_running := _queue_processor_running st;
     fs := fs st |}.

Definition set_unavailable_credentials (v : gmap string Q) (st : QwenAuthBase) :=
  {| _credentials_cache := _credentials_cache st;
     _refresh_locks_held := _refresh_locks_held st;
     _refresh_failures := _refresh_failures st;
     _next_refresh_after := _next_refresh_after st;
     _refresh_queue := _refresh_queue st;
     _queued_credentials := _queued_credentials st;
     _unavailable_credentials := v;
     _unavailable_ttl_seconds := _unavailable_ttl_seconds st;
     _queue_processor_running := _queue_processor_running st;
     fs := fs st |}.

Definition set_queue_processor_running (v : bool) (st : QwenAuthBase) :=
  {| _credentials_cache := _credentials_cache st;
     _refresh_locks_held := _refresh_locks_held st;
     _refresh_failures := _refresh_failures st;
     _next_refresh_after := _next_refresh_after st;
     _refresh_queue := _refresh_queue st;
     _queued_credentials := _queued_credentials st;
     _unavailable_credentials := _unavailable_credentials st;
     _unavailable_ttl_seconds := _unavailable_ttl_seconds st;
     _queue_processor_running := v;
     fs := fs st |}.

Definition set_fs (v : gmap string (option Creds)) (st : QwenAuthBase) :=
  {| _credentials_cache := _credentials_cache st;
     _refresh_locks_held := _refresh_locks_held st;
     _refresh_failures := _refresh_failures st;
     _next_refresh_after := _next_refresh_after st;
     _refresh_queue := _refresh_queue st;
     _queued_credentials := _queued_credentials st;
     _unavailable_credentials := _unavailable_credentials st;
     _unavailable_ttl_seconds := _unavailable_ttl_seconds st;
     _queue_processor_running := _queue_processor_running st;
     fs := v |}.

(** How a coroutine of the adapter ends: it returns, it raises, or it
    waits for ever on a lock that is never released. *)
Inductive outcome (A : Type) : Type :=
| Returned (a : A) (st : QwenAuthBase)
| Raised (e : exn) (st : QwenAuthBase)
| Blocked (st : QwenAuthBase).
Arguments Returned {A} a st.
Arguments Raised {A} e st.
Arguments Blocked {A} st.

Definition final_state {A} (o : outcome A) : QwenAuthBase :=
  match o with
  | Returned _ st | Raised _ st | Blocked st => st
  end.

(** Sequencing: exceptions and blocking propagate. *)
Definition bind {A B} (o : outcome A) (k : A -> QwenAuthBase -> outcome B)
  : outcome B :=
  match o with
  | Returned a st => k a st
  | Raised e st => Raised e st
  | Blocked st => Blocked st
  end.

(** [a < b] on the rationals, as a boolean. *)
Definition Qlt_bool (a b : Q) : bool := negb (Qle_bool b a).

Definition REFRESH_EXPIRY_BUFFER_SECONDS : Z := 3 * 60 * 60.

(** [_is_token_expired]; [now] is the value of [time.time()]. *)
Definition _is_token_expired (creds : Creds) (now : Q) : bool :=
  let expiry_timestamp := (default 0%Q (expiry_date creds) / 1000)%Q in
  Qlt_bool expiry_timestamp (now + inject_Z REFRESH_EXPIRY_BUFFER_SECONDS)%Q.

(** [is_credential_available]; [now] is read only when the path is in
    [_unavailable_credentials]. *)
Definition is_credential_available (st : QwenAuthBase) (path : string) (now : Q)
  : bool * QwenAuthBase :=
  match _unavailable_credentials st !! path with
  | None => (true, st)
  | Some marked_time =>
      if Qlt_bool (inject_Z (_unavailable_ttl_seconds st)) (now - marked_time)%Q
      then (true,
            set_unavailable_credentials
              (delete path (_unavailable_credentials st)) st)
      else (false, st)
  end.

(** [_ensure_queue_processor_running] *)
Definition _ensure_queue_processor_running (st : QwenAuthBase) : QwenAuthBase :=
  if negb (_queue_processor_running st)
  then set_queue_processor_running true st
  else st.

(** [_queue_refresh]; [now] is the clock read by the backoff test and
    [now_marked] the clock read when the path is marked unavailable.
    [_queue_tracking_lock] is held only between two suspension points of
    the same coroutine and is therefore always free when asked for. *)
Definition _queue_refresh (st : QwenAuthBase) (path : string)
    (force needs_reauth : bool) (now now_marked : Q) : QwenAuthBase :=
  let in_backoff :=
    negb needs_reauth &&
    match _next_refresh_after st !! path with
    | Some backoff_until => Qlt_bool now backoff_until
    | None => false
    end in
  if in_backoff then st
  else if bool_decide (path ∈ _queued_credentials st) then st
  else
    let st := set_queued_credentials ({[path]} ∪ _queued_credentials st) st in
    let st := set_unavailable_credentials
                (<[path := now_marked]> (_unavailable_credentials st)) st in
    let st := set_refresh_queue
                (_refresh_queue st ++ [(path, force, needs_reauth)]) st in
    _ensure_queue_processor_running st.

(** What the operating system answers to the temp-file write and the move
    of [_save_credentials]. *)
Inductive WriteAnswer : Type :=
| WriteOk
| WriteFails.

(** [creds.get("_proxy_metadata", {}).get("loaded_from_env")] *)
Definition from_env (creds : Creds) : bool :=
  match _proxy_metadata creds with
  | Some m => loaded_from_env m
  | None => false
  end.

(** [_save_credentials] *)
Definition _save_credentials (st : QwenAuthBase) (path : string) (creds : Creds)
    (w : WriteAnswer) : outcome unit :=
  if from_env creds then
    Returned tt (set_credentials_cache (<[path := creds]> (_credentials_cache st)) st)
  else
    match w with
    | WriteOk =>
        let st := set_fs (<[path := Some creds]> (fs st)) st in
        Returned tt
          (set_credentials_cache (<[path := creds]> (_credentials_cache st)) st)
    | WriteFails => Raised IOError st
    end.

(** [_read_creds_from_file] *)
Definition _read_creds_from_file (st : QwenAuthBase) (path : string)
  : outcome Creds :=
  match fs st !! path with
  | Some (Some creds) =>
      Returned creds
        (set_credentials_cache (<[path := creds]> (_credentials_cache st)) st)
  | Some None => Raised IOError st
  | None => Raised IOError st
  end.

(** [async with await self._get_lock(path)].  An [asyncio.Lock] is not
    re-entrant: asking for a lock that is held waits until its holder
    releases it.  The coroutines of the adapter are run here one after
    the other, so a lock found held is held by a coroutine that is itself
    waiting, and the wait does not end. *)
Definition acquire (path : string) (st : QwenAuthBase) : QwenAuthBase :=
  set_refresh_locks_held ({[path]} ∪ _refresh_locks_held st) st.

Definition release (path : string) (st : QwenAuthBase) : QwenAuthBase :=
  set_refresh_locks_held (_refresh_locks_held st ∖ {[path]}) st.

Definition with_lock {A} (st : QwenAuthBase) (path : string)
    (body : QwenAuthBase -> outcome A) : outcome A :=
  if bool_decide (path ∈ _refresh_locks_held st) then Blocked st
  else
    match body (acquire path st) with
    | Returned a st' => Returned a (release path st')
    | Raised e st' => Raised e (release path st')
    | Blocked st' => Blocked st'
    end.

(** *** The token endpoint *)

(** The JSON object of a token response; [td_expires_in] is [None] when
    the key is missing. *)
Record TokenData : Type := {
  td_access_token : field string;
  td_refresh_token : field string;
  td_expires_in : option Q;
  td_resource_url : field string
}.

(** A JSON body other than [null]: an object, or anything else. *)
Inductive JsonBody : Type :=
| JObject (d : TokenData)
| JOther.

(** What one [client.post] to the token endpoint, followed by
    [raise_for_status] and [response.json()], comes to: a decoded body
    ([None] is JSON [null]), a body that does not decode, an error status
    (with [int] of its [Retry-After] header, 60 when the header is missing
    and [None] when [int] raises), or a transport error. *)
Inductive HttpAnswer : Type :=
| OkJson (body : option JsonBody)
| OkBadJson
| StatusError (status_code : Z) (retry_after : option Z)
| NetworkError.

Definition max_retries : nat := 3.

(** How the retry loop is left: by [break] or by running off the end of
    [range(max_retries)], with the three variables it sets; or by an
    exception. *)
Inductive LoopResult : Type :=
| LoopEnd (new_token_data : option JsonBody) (last_error : option exn)
          (needs_reauth : bool)
| LoopRaise (e : exn).

(** [for attempt in range(max_retries)] of [_refresh_token]. *)
Fixpoint retry_loop (answers : nat -> HttpAnswer) (attempts : list nat)
    (last_error : option exn) : LoopResult :=
  match attempts with
  | [] => LoopEnd None last_error false
  | attempt :: rest =>
      match answers attempt with
      | OkJson body => LoopEnd body last_error false
      | OkBadJson => LoopRaise JSONDecodeError
      | StatusError status_code retry_after =>
          let e := HTTPStatusError status_code in
          if (status_code =? 401) || (status_code =? 403) then
            LoopEnd None (Some e) true
          else if status_code =? 429 then
            match retry_after with
            | None => LoopRaise ValueError
            | Some _ =>
                if (attempt <? max_retries - 1)%nat
                then retry_loop answers rest (Some e)
                else LoopRaise e
            end
          else if (500 <=? status_code) && (status_code <? 600) then
            if (attempt <? max_retries - 1)%nat
            then retry_loop answers rest (Some e)
            else LoopRaise e
          else LoopRaise e
      | NetworkError =>
          if (attempt <? max_retries - 1)%nat
          then retry_loop answers rest (Some RequestError)
          else LoopRaise RequestError
      end
  end.

(** *** Backoff bookkeeping *)

(** The two statements under [[BACKOFF TRACKING] Increment failure count
    and set backoff timer]; [now] is [time.time()]. *)
Definition record_failure (st : QwenAuthBase) (path : string) (now : Q)
  : QwenAuthBase :=
  let st :=
    set_refresh_failures
      (<[path := default 0 (_refresh_failures st !! path) + 1]>
         (_refresh_failures st)) st in
  let backoff_seconds :=
    Z.min 300 (30 * 2 ^ default 0 (_refresh_failures st !! path)) in
  set_next_refresh_after
    (<[path := (now + inject_Z backoff_seconds)%Q]> (_next_refresh_after st)) st.

(** [self._refresh_failures.pop(path, None)] and
    [self._next_refresh_after.pop(path, None)]. *)
Definition clear_failures (st : QwenAuthBase) (path : string) : QwenAuthBase :=
  let st := set_refresh_failures (delete path (_refresh_failures st)) st in
  set_next_refresh_after (delete path (_next_refresh_after st)) st.

(** *** In-place updates of a credential dictionary *)

Definition set_access_token (v : field string) (c : Creds) : Creds :=
  {| access_token := v; refresh_token := refresh_token c;
     expiry_date := expiry_date c; resource_url := resource_url c;
     _proxy_metadata := _proxy_metadata c; extras := extras c |}.

Definition set_refresh_token (v : field string) (c : Creds) : Creds :=
  {| access_token := access_token c; refresh_token := v;
     expiry_date := expiry_date c; resource_url := resource_url c;
     _proxy_metadata := _proxy_metadata c; extras := extras c |}.

Definition set_expiry_date (v : option Q) (c : Creds) : Creds :=
  {| access_token := access_token c; refresh_token := refresh_token c;
     expiry_date := v; resource_url := resource_url c;
     _proxy_metadata := _proxy_metadata c; extras := extras c |}.

Definition set_resource_url (v : field string) (c : Creds) : Creds :=
  {| access_token := access_token c; refresh_token := refresh_token c;
     expiry_date := expiry_date c; resource_url := v;
     _proxy_metadata := _proxy_metadata c; extras := extras c |}.

Definition set_proxy_metadata (v : option ProxyMetadata) (c : Creds) : Creds :=
  {| access_token := access_token c; refresh_token := refresh_token c;
     expiry_date := expiry_date c; resource_url := resource_url c;
     _proxy_metadata := v; extras := extras c |}.

(** The empty dictionary put under [_proxy_metadata] when it is missing. *)
Definition empty_metadata : ProxyMetadata :=
  {| email := Absent; last_check_timestamp := None; display_name := None;
     loaded_from_env := false; env_credential_index := None |}.

Definition set_last_check_timestamp (v : Q) (m : ProxyMetadata) : ProxyMetadata :=
  {| email := email m; last_check_timestamp := Some v;
     display_name := display_name m; loaded_from_env := loaded_from_env m;
     env_credential_index := env_credential_index m |}.

(** The dictionary cached under [path] is the very object the refresh
    mutates, so every assignment shows in the cache at once. *)
Definition store (st : QwenAuthBase) (path : string) (c : Creds) : QwenAuthBase :=
  set_credentials_cache (<[path := c]> (_credentials_cache st)) st.

(** [creds.get("expiry_date", 0)] *)
Definition expiry (c : Creds) : Q := default 0%Q (expiry_date c).

(** *** [_refresh_token] *)

(** The readings of [time.time()] and the answers of the outside world
    during one call of [_refresh_token]. *)
Record RefreshEnv : Type := {
  now_check : Q;
  answers : nat -> HttpAnswer;
  now_backoff : Q;
  now_expiry : Q;
  now_stamp : Q;
  write : WriteAnswer
}.

Section Refresh.

(** [initialize_token] on a path: it may run the interactive device-code
    flow through the re-authentication coordinator. *)
Variable initialize_token : QwenAuthBase -> string -> outcome Creds.

(** Lines 407 to 441: the token data are written into the cached
    dictionary, checked, and saved. *)
Definition apply_token_data (st : QwenAuthBase) (path : string)
    (creds_from_file : Creds) (d : TokenData) (env : RefreshEnv)
  : outcome Creds :=
  match td_access_token d with
  | Absent => Raised KeyError st
  | tok =>
      let c := set_access_token tok creds_from_file in
      let st := store st path c in
      match refresh_token c with
      | Absent => Raised KeyError st
      | old_refresh =>
          let c := set_refresh_token
                     (get_default (td_refresh_token d) old_refresh) c in
          let st := store st path c in
          match td_expires_in d with
          | None => Raised KeyError st
          | Some expires_in =>
              let c := set_expiry_date
                         (Some ((now_expiry env + expires_in) * 1000)%Q) c in
              let c := set_resource_url
                         (get_default (td_resource_url d) (get (resource_url c)))
                         c in
              let m := default empty_metadata (_proxy_metadata c) in
              let c := set_proxy_metadata
                         (Some (set_last_check_timestamp (now_stamp env) m)) c in
              let st := store st path c in
              if negb (truthy (get (access_token c)))
                 || negb (truthy (get (refresh_token c)))
              then Raised ValueError st
              else
                let st := clear_failures st path in
                bind (_save_credentials st path c (write env))
                     (fun _ st => Returned c st)
          end
      end
  end.

(** The body of [_refresh_token], run with the lock of [path] held. *)
Definition refresh_token_locked (path : string) (force : bool)
    (env : RefreshEnv) (st : QwenAuthBase) : outcome Creds :=
  let cached_creds := _credentials_cache st !! path in
  let fresh :=
    match cached_creds with
    | Some c =>
        negb force && nonempty c && negb (_is_token_expired c (now_check env))
    | None => false
    end in
  match cached_creds, fresh with
  | Some c, true => Returned c st
  | _, _ =>
      bind
        match cached_creds with
        | Some c => Returned c st
        | None => _read_creds_from_file st path
        end
        (fun creds_from_file st =>
           if negb (truthy (get (refresh_token creds_from_file)))
           then Raised ValueError st
           else
             match retry_loop (answers env) (seq 0 max_retries) None with
             | LoopRaise e => Raised e st
             | LoopEnd new_token_data last_error needs_reauth =>
                 if needs_reauth then
                   match initialize_token st path with
                   | Returned new_creds st =>
                       Returned new_creds (clear_failures st path)
                   | Raised _ st =>
                       Raised ValueError
                         (record_failure st path (now_backoff env))
                   | Blocked st => Blocked st
                   end
                 else
                   match new_token_data with
                   | None =>
                       Raised (default Exception_ last_error)
                         (record_failure st path (now_backoff env))
                   | Some JOther => Raised TypeError st
                   | Some (JObject d) =>
                       apply_token_data st path creds_from_file d env
                   end
             end)
  end.

(** [_refresh_token] *)
Definition _refresh_token (st : QwenAuthBase) (path : string) (force : bool)
    (env : RefreshEnv) : outcome Creds :=
  with_lock st path (refresh_token_locked path force env).

End Refresh.

(** *** Loading credentials *)

(** [_parse_env_credential_path] *)
Definition _parse_env_credential_path (path : string) : option string :=
  if negb (PyStr.startswith "env://" path) then None
  else
    let parts := PyStr.split "/" (PyStr.drop 6 path) in
    if (2 <=? List.length parts)%nat
    then Some (nth 1 parts EmptyString)
    else Some "0"%string.

Section Load.

(** [os.environ], and Python's [float] on strings ([None] when it raises
    [ValueError]). *)
Variable environ : gmap string string.
Variable float : string -> option Q.

(** Truth value of what [os.getenv] returns. *)
Definition env_truthy (v : option string) : bool :=
  match v with
  | Some s => negb (String.eqb s EmptyString)
  | None => false
  end.

(** [_load_from_env]; [now] is [time.time()]. *)
Definition _load_from_env (credential_index : option string) (now : Q)
  : option Creds :=
  let numbered :=
    match credential_index with
    | Some i => negb (String.eqb i EmptyString) && negb (String.eqb i "0")
    | None => false
    end in
  let i := default EmptyString credential_index in
  let prefix := if numbered then "QWEN_CODE_" +:+ i else "QWEN_CODE"%string in
  let default_email := if numbered then "env-user-" +:+ i else "env-user"%string in
  let access := environ !! (prefix +:+ "_ACCESS_TOKEN") in
  let refresh := environ !! (prefix +:+ "_REFRESH_TOKEN") in
  if negb (env_truthy access && env_truthy refresh) then None
  else
    let expiry_str := default "0"%string (environ !! (prefix +:+ "_EXPIRY_DATE")) in
    let expiry := default 0%Q (float expiry_str) in
    Some {|
      access_token := Val (default EmptyString access);
      refresh_token := Val (default EmptyString refresh);
      expiry_date := Some expiry;
      resource_url :=
        Val (default "https://portal.qwen.ai/v1"%string
               (environ !! (prefix +:+ "_RESOURCE_URL")));
      _proxy_metadata := Some {|
        email := Val (default default_email (environ !! (prefix +:+ "_EMAIL")));
        last_check_timestamp := Some now;
        display_name := None;
        loaded_from_env := true;
        env_credential_index :=
          Some (if env_truthy credential_index then i else "0"%string)
      |};
      extras := ∅
    |}.

(** [_load_credentials] *)
Definition _load_credentials (st : QwenAuthBase) (path : string) (now : Q)
  : outcome Creds :=
  match _credentials_cache st !! path with
  | Some c => Returned c st
  | None =>
      with_lock st path (fun st =>
        match _credentials_cache st !! path with
        | Some c => Returned c st
        | None =>
            match _parse_env_credential_path path with
            | Some credential_index =>
                match _load_from_env (Some credential_index) now with
                | Some env_creds => Returned env_creds (store st path env_creds)
                | None => Raised IOError st
                end
            | None =>
                match _load_from_env None now with
                | Some env_creds => Returned env_creds (store st path env_creds)
                | None => _read_creds_from_file st path
                end
            end
        end)
  end.

Variable initialize_token : QwenAuthBase -> string -> outcome Creds.

(** [get_api_details]; [os.path.isfile] looks the identifier up in the
    file system.  The token of the pair is [None] when the dictionary
    holds [None] under [access_token]. *)
Definition get_api_details (st : QwenAuthBase) (credential_identifier : string)
    (now_load now_expired : Q) (env : RefreshEnv)
  : outcome (string * option string) :=
  if bool_decide (is_Some (fs st !! credential_identifier)) then
    bind (_load_credentials st credential_identifier now_load) (fun creds st =>
    bind (if _is_token_expired creds now_expired
          then _refresh_token initialize_token st credential_identifier false env
          else Returned creds st) (fun creds st =>
    match get_default (resource_url creds) (Val "https://portal.qwen.ai/v1"%string) with
    | Val base_url =>
        let base_url :=
          if negb (PyStr.startswith "http" base_url)
          then "https://" +:+ base_url else base_url in
        match access_token creds with
        | Absent => Raised KeyError st
        | Null => Returned (base_url, None) st
        | Val tok => Returned (base_url, Some tok) st
        end
    | _ => Raised AttributeError st
    end))
  else
    Returned ("https://portal.qwen.ai/v1"%string, Some credential_identifier) st.

(** [proactively_refresh] *)
Definition proactively_refresh (st : QwenAuthBase) (credential_identifier : string)
    (now_load now_expired now now_marked : Q) : outcome unit :=
  match _load_credentials st credential_identifier now_load with
  | Raised IOError st => Returned tt st
  | Raised e st => Raised e st
  | Blocked st => Blocked st
  | Returned creds st =>
      if _is_token_expired creds now_expired
      then Returned tt
             (_queue_refresh st credential_identifier false false now now_marked)
      else Returned tt st
  end.

(** *** The queue worker *)

(** One turn of the [while True] loop of [_process_refresh_queue]: the
    worker returns after the idle timeout, or it finishes the item and
    goes round again, or it waits for ever on a lock.  [refresh_invoked]
    says whether [_refresh_token] was called. *)
Inductive Turn : Type :=
| Exits (st : QwenAuthBase)
| Continues (refresh_invoked : bool) (st : QwenAuthBase)
| Stuck (refresh_invoked : bool) (st : QwenAuthBase).

Definition turn_state (t : Turn) : QwenAuthBase :=
  match t with
  | Exits st | Continues _ st | Stuck _ st => st
  end.

(** [self._unavailable_credentials.pop(path, None)] *)
Definition mark_available (path : string) (st : QwenAuthBase) : QwenAuthBase :=
  set_unavailable_credentials (delete path (_unavailable_credentials st)) st.

(** The [finally] block of the worker. *)
Definition finally_cleanup (path : string) (st : QwenAuthBase) : QwenAuthBase :=
  let st := set_queued_credentials (_queued_credentials st ∖ {[path]}) st in
  mark_available path st.

(** The [except asyncio.TimeoutError] block: the queue stayed empty for
    60 seconds. *)
Definition idle_timeout (st : QwenAuthBase) : QwenAuthBase :=
  let st := set_unavailable_credentials ∅ st in
  let st := set_queued_credentials ∅ st in
  set_queue_processor_running false st.

(** One turn of the worker.  [now] is the clock of the expiry re-check,
    [now_load] the one of [_load_credentials], [env] the world of the
    refresh. *)
Definition process_refresh_queue_turn (st : QwenAuthBase) (now now_load : Q)
    (env : RefreshEnv) : Turn :=
  match _refresh_queue st with
  | [] => Exits (idle_timeout st)
  | (path, force, needs_reauth) :: rest =>
      let st := set_refresh_queue rest st in
      if bool_decide (path ∈ _refresh_locks_held st) then Stuck false st
      else
        let st := acquire path st in
        let creds := _credentials_cache st !! path in
        let valid :=
          match creds with
          | Some c => nonempty c && negb (_is_token_expired c now)
          | None => false
          end in
        if valid then
          let st := mark_available path st in
          Continues false (finally_cleanup path (release path st))
        else
          let loaded :=
            match creds with
            | Some c =>
                if nonempty c then Returned c st
                else _load_credentials st path now_load
            | None => _load_credentials st path now_load
            end in
          match loaded with
          | Blocked st => Stuck false st
          | Raised _ st =>
              Continues false
                (mark_available path (finally_cleanup path (release path st)))
          | Returned _ st =>
              match _refresh_token initialize_token st path force env with
              | Blocked st => Stuck true st
              | Raised _ st =>
                  Continues true
                    (mark_available path (finally_cleanup path (release path st)))
              | Returned _ st =>
                  let st := mark_available path st in
                  Continues true (finally_cleanup path (release path st))
              end
          end
  end.

End Load.

(** [except asyncio.CancelledError] of the worker, reached through the
    [finally] block when the task is cancelled while it works on [path]. *)
Definition worker_cancelled (path : string) (st : QwenAuthBase) : QwenAuthBase :=
  let st := finally_cleanup path (release path st) in
  set_queue_processor_running false (mark_available path st).

End Qwen.

(** ** rotator_library/utils/reauth_coordinator.py

    The coroutines of [asyncio] run one at a time and hand over only at an
    [await] that suspends.  [execute_reauth] therefore runs in atomic
    stretches: from the moment it gets [_active_reauth_lock] to the
    [wait_for] it suspends on, and from the end of that wait to its
    return.  The coordinator is modelled as a transition system whose
    events are these stretches, together with the end of a flow task. *)
Module Reauth.

(** [Path(credential_path).name] for a POSIX path: the last component,
    empty and [.] components dropped. *)
Definition path_name (credential_path : string) : string :=
  let parts :=
    filter (fun s => s ≠ EmptyString ∧ s ≠ "."%string)
           (PyStr.split "/" credential_path) in
  default EmptyString (last parts).

(** The identifier built by the first two statements of [execute_reauth]. *)
Definition reauth_id (credential_path provider_name : string) : string :=
  let credential_id :=
    if String.eqb credential_path EmptyString then "unknown"%string
    else path_name credential_path in
  provider_name +:+ ":" +:+ credential_id.

(** Where a pending call of [execute_reauth] is: waiting for
    [_active_reauth_lock]; holding it and waiting for a task somebody else
    created; holding it and waiting for the task it created. *)
Inductive phase : Type :=
| AwaitingLock
| Joined (task : nat)
| Owning (task : nat).

(** What a call of [execute_reauth] gives back to its caller. *)
Inductive answer : Type :=
| Result
| TimeoutError
| Failure.

(** The coordinator.  [live] is the set of the tasks created by
    [asyncio.create_task] that are not done: the interactive flows in
    progress; [finished] maps a task that is done to the way it ended.
    Tasks are numbered in the order of their creation, so [next_task] is
    also the number of flows started so far. *)
Record Coordinator : Type := {
  lock_owner : option nat;
  _active_reauth_tasks : gmap string nat;
  live : gset nat;
  finished : gmap nat answer;
  next_task : nat;
  calls : gmap nat (string * phase);
  answers : gmap nat answer
}.

(** [ReauthCoordinator.__init__] *)
Definition init : Coordinator := {|
  lock_owner := None;
  _active_reauth_tasks := ∅;
  live := ∅;
  finished := ∅;
  next_task := 0;
  calls := ∅;
  answers := ∅
|}.

(** The events: a call of [execute_reauth] arrives; a waiting call gets
    the lock and runs up to its [wait_for]; a flow task ends by itself
    (it returns, or it raises, [TimeoutError] when the [wait_for] of
    [_execute_single_reauth] fires); the [wait_for] of a call ends
    because its task is done; the [wait_for] of a call times out. *)
Inductive event : Type :=
| Call (caller : nat) (credential_path provider_name : string)
| Enter (caller : nat)
| TaskEnds (task : nat) (a : answer)
| Return (caller : nat)
| WaitTimesOut (caller : nat).

(** Lines 71 and 72: a new task is created and registered. *)
Definition create_task (caller : nat) (id : string) (s : Coordinator)
  : Coordinator :=
  {| lock_owner := Some caller;
     _active_reauth_tasks := <[id := next_task s]> (_active_reauth_tasks s);
     live := {[next_task s]} ∪ live s;
     finished := finished s;
     next_task := S (next_task s);
     calls := <[caller := (id, Owning (next_task s))]> (calls s);
     answers := answers s |}.

(** A task stops being live, by its own end or by cancellation. *)
Definition end_task (task : nat) (a : answer) (s : Coordinator) : Coordinator :=
  {| lock_owner := lock_owner s;
     _active_reauth_tasks := _active_reauth_tasks s;
     live := live s ∖ {[task]};
     finished := <[task := a]> (finished s);
     next_task := next_task s;
     calls := calls s;
     answers := answers s |}.

(** The call leaves [execute_reauth] with answer [a]: the lock is
    released; [pop] says whether the [finally] block of line 86 runs. *)
Definition leave (caller : nat) (id : string) (a : answer) (pop : bool)
    (s : Coordinator) : Coordinator :=
  {| lock_owner := None;
     _active_reauth_tasks :=
       if pop then delete id (_active_reauth_tasks s)
       else _active_reauth_tasks s;
     live := live s;
     finished := finished s;
     next_task := next_task s;
     calls := delete caller (calls s);
     answers := <[caller := a]> (answers s) |}.

(** One event; [None] when the event cannot happen in the state. *)
Definition step (s : Coordinator) (e : event) : option Coordinator :=
  match e with
  | Call caller credential_path provider_name =>
      match calls s !! caller with
      | Some _ => None
      | None =>
          Some {| lock_owner := lock_owner s;
                  _active_reauth_tasks := _active_reauth_tasks s;
                  live := live s;
                  finished := finished s;
                  next_task := next_task s;
                  calls := <[caller :=
                               (reauth_id credential_path provider_name,
                                AwaitingLock)]> (calls s);
                  answers := answers s |}
      end
  | Enter caller =>
      match calls s !! caller, lock_owner s with
      | Some (id, AwaitingLock), None =>
          match _active_reauth_tasks s !! id with
          | Some active_task =>
              if bool_decide (active_task ∈ live s) then
                Some {| lock_owner := Some caller;
                        _active_reauth_tasks := _active_reauth_tasks s;
                        live := live s;
                        finished := finished s;
                        next_task := next_task s;
                        calls := <[caller := (id, Joined active_task)]> (calls s);
                        answers := answers s |}
              else Some (create_task caller id s)
          | None => Some (create_task caller id s)
          end
      | _, _ => None
      end
  | TaskEnds task a =>
      if bool_decide (task ∈ live s) then Some (end_task task a s) else None
  | Return caller =>
      match calls s !! caller with
      | Some (id, Owning task) =>
          match finished s !! task with
          | Some a => Some (leave caller id a true s)
          | None => None
          end
      | Some (id, Joined task) =>
          match finished s !! task with
          | Some a => Some (leave caller id a false s)
          | None => None
          end
      | _ => None
      end
  | WaitTimesOut caller =>
      match calls s !! caller with
      | Some (id, Owning task) =>
          if bool_decide (task ∈ live s)
          then Some (leave caller id TimeoutError true
                       (end_task task Failure s))
          else None
      | Some (id, Joined task) =>
          if bool_decide (task ∈ live s)
          then Some (create_task caller id (end_task task Failure s))
          else None
      | _ => None
      end
  end.

(** A schedule of events from a state. *)
Fixpoint run (s : Coordinator) (es : list event) : option Coordinator :=
  match es with
  | [] => Some s
  | e :: es' =>
      match step s e with
      | Some s' => run s' es'
      | None => None
      end
  end.

(** The states of the coordinator that some schedule reaches. *)
Definition reachable (s : Coordinator) : Prop :=
  ∃ es, run init es = Some s.

(** The shape of the coordinator between two events.  A task that is
    live has not finished, and every task has a number below [next_task].
    While the lock is free no task is registered, no flow is live and
    every pending call waits for the lock; while it is held, its owner
    waits for the task it created, which is the only one registered and
    the only one that can be live, and every other call waits for the
    lock. *)
Definition invariant (s : Coordinator) : Prop :=
  (∀ t, t ∈ live s → (t < next_task s)%nat ∧ finished s !! t = None)
  ∧ (∀ t, is_Some (finished s !! t) → (t < next_task s)%nat)
  ∧ match lock_owner s with
    | None =>
        _active_reauth_tasks s = ∅ ∧ live s = ∅
        ∧ ∀ c id ph, calls s !! c = Some (id, ph) → ph = AwaitingLock
    | Some o =>
        ∃ id t,
          calls s !! o = Some (id, Owning t)
          ∧ _active_reauth_tasks s = {[id := t]}
          ∧ live s ⊆ {[t]}
          ∧ ∀ c id' ph, c ≠ o → calls s !! c = Some (id', ph) → ph = AwaitingLock
    end.

End Reauth.

(** ** Reachable states of the adapter

    The states the adapter object goes through.  Only [_queue_refresh],
    [is_credential_available] and the queue worker assign
    [_queued_credentials] and [_unavailable_credentials]; no method
    assigns [_unavailable_ttl_seconds] after the constructor.  Every
    stretch of any other method, and every change of the file system, is
    a step that leaves these three attributes as they are. *)
Section Reachable.

Variable environ : gmap string string.
Variable float : string -> option Q.
Variable initialize_token : Qwen.QwenAuthBase -> string -> Qwen.outcome Qwen.Creds.

Inductive reachable : Qwen.QwenAuthBase -> Prop :=
| reach_init files :
    reachable (Qwen.init files)
| reach_queue_refresh st path force needs_reauth now now_marked :
    reachable st ->
    reachable (Qwen._queue_refresh st path force needs_reauth now now_marked)
| reach_is_credential_available st path now :
    reachable st ->
    reachable (snd (Qwen.is_credential_available st path now))
| reach_worker_turn st now now_load env :
    reachable st ->
    reachable
      (Qwen.turn_state
         (Qwen.process_refresh_queue_turn environ float initialize_token
            st now now_load env))
| reach_worker_cancelled st path :
    reachable st ->
    reachable (Qwen.worker_cancelled path st)
| reach_other st st' :
    reachable st ->
    Qwen._queued_credentials st' = Qwen._queued_credentials st ->
    Qwen._unavailable_credentials st' = Qwen._unavailable_credentials st ->
    Qwen._unavailable_ttl_seconds st' = Qwen._unavailable_ttl_seconds st ->
    reachable st'.

End Reachable.

(** ** Sample data

    A credential file, a cached adapter and a world around one refresh,
    used to run the embedded code on concrete inputs. *)
Module Samples.

Definition path : string := "oauth_creds/qwen_code_oauth_1.json".

(** A credential, complete but for its expiry (epoch milliseconds). *)
Definition creds_at (expiry : Q) : Qwen.Creds := {|
  Qwen.access_token := Qwen.Val "access-0"%string;
  Qwen.refresh_token := Qwen.Val "refresh-0"%string;
  Qwen.expiry_date := Some expiry;
  Qwen.resource_url := Qwen.Absent;
  Qwen._proxy_metadata := None;
  Qwen.extras := ∅
|}.

(** A new adapter over a file system that holds [c] at [path], after the
    credential has been loaded into the cache. *)
Definition cached (c : Qwen.Creds) : Qwen.QwenAuthBase :=
  Qwen.store (Qwen.init {[path := Some c]}) path c.

(** A refresh at second 1000 of the epoch, the token endpoint answering
    [a] and the file write succeeding. *)
Definition world (a : nat -> Qwen.HttpAnswer) : Qwen.RefreshEnv := {|
  Qwen.now_check := 1000;
  Qwen.answers := a;
  Qwen.now_backoff := 1000;
  Qwen.now_expiry := 1000;
  Qwen.now_stamp := 1000;
  Qwen.write := Qwen.WriteOk
|}.

(** A token response with the given access token and lifetime, and no
    other key. *)
Definition token (access : Qwen.field string) (expires_in : Q) : Qwen.TokenData := {|
  Qwen.td_access_token := access;
  Qwen.td_refresh_token := Qwen.Absent;
  Qwen.td_expires_in := Some expires_in;
  Qwen.td_resource_url := Qwen.Absent
|}.

(** An [initialize_token] that fails. *)
Definition failing_login (st : Qwen.QwenAuthBase) (p : string)
  : Qwen.outcome Qwen.Creds :=
  Qwen.Raised Qwen.ValueError st.

(** The metadata of a credential assembled from environment variables. *)
Definition env_metadata : Qwen.ProxyMetadata := {|
  Qwen.email := Qwen.Val "env-user"%string;
  Qwen.last_check_timestamp := Some 0%Q;
  Qwen.display_name := None;
  Qwen.loaded_from_env := true;
  Qwen.env_credential_index := Some "0"%string
|}.

Definition env_creds : Qwen.Creds :=
  Qwen.set_proxy_metadata (Some env_metadata) (creds_at 0).

(** [float] on the one string the sample environments hold. *)
Definition float (s : string) : option Q :=
  if String.eqb s "0" then Some 0%Q else None.

End Samples.

(** ** Frames

    What a method working on one credential leaves alone: the cache
    entry, the file, the failure counter and the backoff timer of every
    other path, and the queue with its two sets. *)
Module Frame.

Definition same_elsewhere (path : string) (s s' : Qwen.QwenAuthBase) : Prop :=
  (∀ p, p ≠ path →
        Qwen._credentials_cache s' !! p = Qwen._credentials_cache s !! p
        ∧ Qwen.fs s' !! p = Qwen.fs s !! p
        ∧ Qwen._refresh_failures s' !! p = Qwen._refresh_failures s !! p
        ∧ Qwen._next_refresh_after s' !! p = Qwen._next_refresh_after s !! p)
  ∧ Qwen._refresh_queue s' = Qwen._refresh_queue s
  ∧ Qwen._queued_credentials s' = Qwen._queued_credentials s
  ∧ Qwen._unavailable_credentials s' = Qwen._unavailable_credentials s
  ∧ Qwen._unavailable_ttl_seconds s' = Qwen._unavailable_ttl_seconds s
  ∧ Qwen._queue_processor_running s' = Qwen._queue_processor_running s.

End Frame.

(** Sample states of the coordinator: two calls for the same credential
    have arrived; then the first has the lock and its flow is running. *)
Module ReauthSamples.

Definition arrivals : list Reauth.event :=
  [Reauth.Call 1 Samples.path "QWEN_CODE"; Reauth.Call 2 Samples.path "QWEN_CODE"].

Definition both_waiting : Reauth.Coordinator :=
  default Reauth.init (Reauth.run Reauth.init arrivals).

Definition flow_running : Reauth.Coordinator :=
  default Reauth.init (Reauth.run Reauth.init (arrivals ++ [Reauth.Enter 1])).

Definition flow_timed_out : Reauth.Coordinator :=
  default Reauth.init
    (Reauth.run Reauth.init (arrivals ++ [Reauth.Enter 1; Reauth.WaitTimesOut 1])).

End ReauthSamples.

(** ** The refresh queue and its set

    [queue_paths] lists the paths waiting in [_refresh_queue], oldest
    first.  The queue is sound when no path waits twice and every path
    that waits is in [_queued_credentials]. *)
Module Queue.



Section Served.

Variable environ : gmap string string.
Variable float : string -> option Q.
Variable initialize_token : Qwen.QwenAuthBase -> string -> Qwen.outcome Qwen.Creds.


End Served.

End Queue.

(** Sample states of the adapter: a request was queued and its item taken
    off the queue with the path left in the two sets; then the worker
    found the queue empty. *)
Module QueueSamples.

Definition item_taken : Qwen.QwenAuthBase :=
  Qwen.set_refresh_queue []
    (Qwen._queue_refresh (Qwen.init ∅) Samples.path false false 0 0).

Definition at_rest : Qwen.QwenAuthBase :=
  Qwen.turn_state
    (Qwen.process_refresh_queue_turn ∅ Samples.float Samples.failing_login
       item_taken 70 70 (Samples.world (fun _ => Qwen.NetworkError))).

End QueueSamples.

(** * Properties *)

Import Qwen.

(** ** Arithmetic of the clock *)

Lemma Qlt_bool_iff (a b : Q) : Qlt_bool a b = true <-> (a < b)%Q.
Proof.
  unfold Qlt_bool. rewrite negb_true_iff. split.
  - intros H. apply Qnot_le_lt. intros Hle.
    apply Qle_bool_iff in Hle. congruence.
  - intros H. destruct (Qle_bool b a) eqn:E; [|reflexivity].
    apply Qle_bool_iff in E. exfalso. eapply Qlt_not_le; eauto.
Qed.

Lemma Qlt_bool_false_iff (a b : Q) : Qlt_bool a b = false <-> (b <= a)%Q.
Proof.
  unfold Qlt_bool. rewrite negb_false_iff. apply Qle_bool_iff.
Qed.

(** ** Availability check with TTL clean-up *)

(** C4: a credential marked unavailable at time [t] and checked at a time
    [now] with [now - t] above the TTL is removed from the unavailable
    set and reported available, nothing else changing; a credential that
    is not in the unavailable set is reported available and the state is
    left as it is; the TTL of a new adapter is 300 seconds. *)
Theorem is_credential_available_ttl (st : QwenAuthBase) (path : string) (now : Q) :
  (forall t : Q,
      _unavailable_credentials st !! path = Some t ->
      (inject_Z (_unavailable_ttl_seconds st) < now - t)%Q ->
      is_credential_available st path now
      = (true,
         set_unavailable_credentials
           (delete path (_unavailable_credentials st)) st)
      /\ _unavailable_credentials (snd (is_credential_available st path now))
           !! path = None)
  /\ (_unavailable_credentials st !! path = None ->
      is_credential_available st path now = (true, st))
  /\ (forall files, _unavailable_ttl_seconds (init files) = 300).
Proof.
  split; [|split].
  - intros t Ht Hlt. unfold is_credential_available. rewrite Ht.
    apply Qlt_bool_iff in Hlt. rewrite Hlt. split; [reflexivity|].
    cbn. apply lookup_delete_eq.
  - intros Hnone. unfold is_credential_available. now rewrite Hnone.
  - reflexivity.
Qed.

(** C4 on a credential marked unavailable at second 100 and checked at
    second 500, with the TTL of 300 seconds. *)
Lemma is_credential_available_ttl_witness :
  _unavailable_credentials
    (_queue_refresh (init ∅) Samples.path false false 100 100) !! Samples.path
  = Some 100%Q
  /\ is_credential_available
       (_queue_refresh (init ∅) Samples.path false false 100 100) Samples.path 500
     = (true,
        set_unavailable_credentials
          (delete Samples.path
             (_unavailable_credentials
                (_queue_refresh (init ∅) Samples.path false false 100 100)))
          (_queue_refresh (init ∅) Samples.path false false 100 100)).
Proof.
  split.
  - vm_compute. reflexivity.
  - refine (proj1
      (proj1 (is_credential_available_ttl
                (_queue_refresh (init ∅) Samples.path false false 100 100)
                Samples.path 500) 100%Q _ _)).
    + vm_compute. reflexivity.
    + vm_compute. reflexivity.
Defined.

(** ** Saving credentials that came from the environment *)

(** C9: saving a credential whose metadata has [loaded_from_env] true
    returns without touching the file system, whatever the operating
    system would have answered, and leaves the credential in the cache
    under its path, the other cache entries being unchanged. *)
Theorem save_credentials_from_env (st : QwenAuthBase) (path : string)
    (creds : Creds) (m : ProxyMetadata) (w : WriteAnswer) :
  _proxy_metadata creds = Some m ->
  loaded_from_env m = true ->
  exists st',
    _save_credentials st path creds w = Returned tt st'
    /\ fs st' = fs st
    /\ _credentials_cache st' !! path = Some creds
    /\ forall p, p ≠ path -> _credentials_cache st' !! p = _credentials_cache st !! p.
Proof.
  intros Hm Henv. unfold _save_credentials, from_env. rewrite Hm, Henv.
  eexists. split; [reflexivity|]. cbn. split; [reflexivity|]. split.
  - apply lookup_insert_eq.
  - intros p Hp. now apply lookup_insert_ne.
Qed.

(** C9 on a credential assembled from environment variables, with an
    operating system that would refuse the write. *)
Lemma save_credentials_from_env_witness :
  loaded_from_env Samples.env_metadata = true
  /\ exists st',
       _save_credentials (init ∅) "env://qwen_code/0" Samples.env_creds WriteFails
       = Returned tt st'
       /\ fs st' = fs (init ∅)
       /\ _credentials_cache st' !! "env://qwen_code/0"%string = Some Samples.env_creds
       /\ forall p, p ≠ "env://qwen_code/0"%string ->
            _credentials_cache st' !! p = _credentials_cache (init ∅) !! p.
Proof.
  split; [reflexivity|].
  apply (save_credentials_from_env (init ∅) "env://qwen_code/0"
           Samples.env_creds Samples.env_metadata WriteFails);
    reflexivity.
Defined.

(** Whatever is saved under a path, and however the save ends, the
    files at the other paths stay as they are. *)
Lemma save_credentials_other_files (st : QwenAuthBase) (path p : string)
    (creds : Creds) (w : WriteAnswer) :
  p ≠ path ->
  fs (final_state (_save_credentials st path creds w)) !! p = fs st !! p.
Proof.
  intros Hp. unfold _save_credentials.
  destruct (from_env creds); [reflexivity|].
  destruct w; [|reflexivity]. cbn. now apply lookup_insert_ne.
Qed.

(** ** API details of a direct key *)

(** C10: for an identifier that is not the path of an existing file,
    [get_api_details] returns the default base URL and the identifier
    itself, and leaves the adapter as it is. *)
Theorem get_api_details_direct_key (environ : gmap string string)
    (float : string -> option Q)
    (initialize_token : QwenAuthBase -> string -> outcome Creds)
    (st : QwenAuthBase) (credential_identifier : string)
    (now_load now_expired : Q) (env : RefreshEnv) :
  fs st !! credential_identifier = None ->
  get_api_details environ float initialize_token st credential_identifier
    now_load now_expired env
  = Returned ("https://portal.qwen.ai/v1"%string, Some credential_identifier) st.
Proof.
  intros Hfile. unfold get_api_details.
  rewrite bool_decide_eq_false_2; [reflexivity|].
  rewrite Hfile. intros [x Hx]. discriminate.
Qed.

(** C10 on an API key, and on the path of a credential file that is
    cached but no longer on disk. *)
Lemma get_api_details_direct_key_witness :
  fs (init ∅) !! "sk-0123456789"%string = None
  /\ get_api_details ∅ Samples.float Samples.failing_login (init ∅)
       "sk-0123456789" 0 0 (Samples.world (fun _ => NetworkError))
     = Returned ("https://portal.qwen.ai/v1"%string, Some "sk-0123456789"%string)
         (init ∅)
  /\ get_api_details ∅ Samples.float Samples.failing_login
       (set_fs ∅ (Samples.cached (Samples.creds_at 0)))
       Samples.path 0 0 (Samples.world (fun _ => NetworkError))
     = Returned ("https://portal.qwen.ai/v1"%string, Some Samples.path)
         (set_fs ∅ (Samples.cached (Samples.creds_at 0))).
Proof.
  split; [vm_compute; reflexivity|]. split.
  - apply (get_api_details_direct_key ∅ Samples.float Samples.failing_login
             (init ∅) "sk-0123456789" 0 0 (Samples.world (fun _ => NetworkError))).
    vm_compute. reflexivity.
  - apply (get_api_details_direct_key ∅ Samples.float Samples.failing_login
             (set_fs ∅ (Samples.cached (Samples.creds_at 0)))
             Samples.path 0 0 (Samples.world (fun _ => NetworkError))).
    vm_compute. reflexivity.
Defined.

(** ** Discovery of API keys *)

Lemma app_cons (c : ascii) (s t : string) :
  String c s +:+ t = String c (s +:+ t).
Proof. reflexivity. Qed.

Lemma app_empty_r (s : string) : s +:+ EmptyString = s.
Proof.
  induction s as [|c s IH]; [reflexivity|]. now rewrite app_cons, IH.
Qed.

Lemma app_assoc_string (a b c : string) : (a +:+ b) +:+ c = a +:+ (b +:+ c).
Proof.
  induction a as [|x a IH]; [reflexivity|]. now rewrite !app_cons, IH.
Qed.

Lemma length_app_string (a b : string) :
  String.length (a +:+ b) = (String.length a + String.length b)%nat.
Proof.
  induction a as [|x a IH]; [reflexivity|].
  rewrite app_cons. cbn. now rewrite IH.
Qed.

(** [startswith] looks at the first [len(p)] characters only. *)
Lemma startswith_app (p a b : string) :
  (String.length p <= String.length a)%nat ->
  PyStr.startswith p (a +:+ b) = PyStr.startswith p a.
Proof.
  revert a. induction p as [|x p IH]; intros a Hlen; [reflexivity|].
  destruct a as [|y a]; cbn in Hlen; [lia|]. rewrite !app_cons. cbn.
  destruct (Ascii.eqb x y); [|reflexivity]. apply IH. lia.
Qed.

(** Passing over the rest of an occurrence. *)
Lemma replace_scan_skip (old new a rest : string) :
  PyStr.replace_scan old new (String.length a) (a +:+ rest)
  = PyStr.replace_scan old new 0 rest.
Proof.
  induction a as [|x a IH].
  - reflexivity.
  - rewrite app_cons. exact IH.
Qed.

Lemma split_scan_skip (sep cur a rest : string) :
  PyStr.split_scan sep (String.length a) cur (a +:+ rest)
  = PyStr.split_scan sep 0 cur rest.
Proof.
  induction a as [|x a IH].
  - reflexivity.
  - rewrite app_cons. exact IH.
Qed.

(** No occurrence of [_API_KEY] starts inside [provider ++ "_API_KEY..."]
    before the end of [provider], when none lies within
    [provider ++ "_API_KE"]. *)
Lemma no_early_occurrence (c : ascii) (p rest : string) :
  PyStr.startswith "_API_KEY" (String c p +:+ "_API_KE") = false ->
  PyStr.startswith "_API_KEY" (String c p +:+ "_API_KEY" +:+ rest) = false.
Proof.
  intros Hhere.
  assert (E : String c p +:+ "_API_KEY" +:+ rest
              = (String c p +:+ "_API_KE") +:+ ("Y" +:+ rest)).
  { now rewrite app_assoc_string. }
  rewrite E, startswith_app; [exact Hhere|].
  rewrite length_app_string. cbn. lia.
Qed.

(** [replace] on a variable name [provider ++ "_API_KEY" ++ rest]. *)
Lemma replace_first_occurrence (provider rest : string) :
  PyStr.contains "_API_KEY" (provider +:+ "_API_KE") = false ->
  PyStr.replace "_API_KEY" "" (provider +:+ "_API_KEY" +:+ rest)
  = provider +:+ PyStr.replace "_API_KEY" "" rest.
Proof.
  unfold PyStr.replace. induction provider as [|c p IH]; intros Hfree.
  - change (EmptyString +:+ "_API_KEY" +:+ rest)
      with (String "_" ("API_KEY" +:+ rest))%string.
    cbn [PyStr.replace_scan].
    change (PyStr.startswith "_API_KEY" (String "_" ("API_KEY" +:+ rest)))
      with true.
    cbn [String.length Nat.sub].
    change 7%nat with (String.length "API_KEY").
    now rewrite replace_scan_skip.
  - rewrite app_cons in Hfree. cbn [PyStr.contains] in Hfree.
    apply orb_false_iff in Hfree. destruct Hfree as [Hhere Hfree].
    rewrite <- app_cons in Hhere.
    pose proof (no_early_occurrence c p rest Hhere) as Hsw.
    rewrite !app_cons in *. cbn [PyStr.replace_scan]. rewrite Hsw.
    f_equal. now apply IH.
Qed.

(** [split] on a variable name [provider ++ "_API_KEY" ++ rest]: the
    first piece is [provider]. *)
Lemma split_first_occurrence (provider rest cur : string) :
  PyStr.contains "_API_KEY" (provider +:+ "_API_KE") = false ->
  head (PyStr.split_scan "_API_KEY" 0 cur (provider +:+ "_API_KEY" +:+ rest))
  = Some (cur +:+ provider).
Proof.
  revert cur. induction provider as [|c p IH]; intros cur Hfree.
  - change (EmptyString +:+ "_API_KEY" +:+ rest)
      with (String "_" ("API_KEY" +:+ rest))%string.
    cbn [PyStr.split_scan].
    change (PyStr.startswith "_API_KEY" (String "_" ("API_KEY" +:+ rest)))
      with true.
    cbn [head]. now rewrite app_empty_r.
  - rewrite app_cons in Hfree. cbn [PyStr.contains] in Hfree.
    apply orb_false_iff in Hfree. destruct Hfree as [Hhere Hfree].
    rewrite <- app_cons in Hhere.
    pose proof (no_early_occurrence c p rest Hhere) as Hsw.
    rewrite !app_cons in *. cbn [PyStr.split_scan]. rewrite Hsw.
    rewrite IH by exact Hfree. f_equal.
    rewrite app_assoc_string. reflexivity.
Qed.

Lemma contains_first_occurrence (provider rest : string) :
  PyStr.contains "_API_KEY" (provider +:+ "_API_KEY" +:+ rest) = true.
Proof.
  induction provider as [|c p IH].
  - reflexivity.
  - rewrite app_cons. cbn [PyStr.contains]. rewrite IH. apply orb_true_r.
Qed.

Lemma length_lower (s : string) : String.length (PyStr.lower s) = String.length s.
Proof. induction s as [|c s IH]; cbn; [reflexivity|now rewrite IH]. Qed.

(** The start-up loop of the proxy files a variable
    [provider ++ "_API_KEY" ++ suffix] under [provider] in lower case,
    whatever the suffix. *)
Lemma main_files_under_provider (provider suffix value : string) :
  PyStr.contains "_API_KEY" (provider +:+ "_API_KE") = false ->
  provider +:+ "_API_KEY" +:+ suffix ≠ "PROXY_API_KEY"%string ->
  ProxyMain.api_keys [(provider +:+ "_API_KEY" +:+ suffix, value)]
  = {[PyStr.lower provider := [value]]}.
Proof.
  intros Hfree Hproxy. unfold ProxyMain.api_keys. cbn [foldl].
  unfold ProxyMain.discover_api_key.
  rewrite contains_first_occurrence.
  apply String.eqb_neq in Hproxy. rewrite Hproxy. cbn [negb andb].
  unfold PyStr.split. rewrite split_first_occurrence by exact Hfree.
  cbn [default String.append]. rewrite lookup_empty, lookup_insert_eq.
  cbn [default app]. now rewrite insert_insert_eq.
Qed.

(** [_discover_api_keys] files the same variable under [provider]
    followed by what is left of the suffix, in lower case: under another
    name than [provider] as soon as the suffix is more than occurrences
    of [_API_KEY]. *)
Lemma manager_files_under_provider_and_suffix (provider suffix value : string) :
  PyStr.contains "_API_KEY" (provider +:+ "_API_KE") = false ->
  provider +:+ "_API_KEY" +:+ suffix ≠ "PROXY_API_KEY"%string ->
  CredentialManager._discover_api_keys
    [(provider +:+ "_API_KEY" +:+ suffix, value)]
  = {[PyStr.lower (provider +:+ PyStr.replace "_API_KEY" "" suffix) :=
        ["env://" +:+ provider +:+ "_API_KEY" +:+ suffix]]}.
Proof.
  intros Hfree Hproxy. unfold CredentialManager._discover_api_keys. cbn [foldl].
  unfold CredentialManager.discover_api_key.
  rewrite contains_first_occurrence.
  apply String.eqb_neq in Hproxy. rewrite Hproxy. cbn [negb andb].
  rewrite replace_first_occurrence by exact Hfree.
  rewrite lookup_empty, lookup_insert_eq.
  cbn [default app]. now rewrite insert_insert_eq.
Qed.

Lemma manager_misses_provider (provider suffix value : string) :
  PyStr.contains "_API_KEY" (provider +:+ "_API_KE") = false ->
  provider +:+ "_API_KEY" +:+ suffix ≠ "PROXY_API_KEY"%string ->
  PyStr.replace "_API_KEY" "" suffix ≠ EmptyString ->
  CredentialManager._discover_api_keys
    [(provider +:+ "_API_KEY" +:+ suffix, value)] !! PyStr.lower provider
  = None.
Proof.
  intros Hfree Hproxy Hsuffix.
  rewrite manager_files_under_provider_and_suffix by assumption.
  apply lookup_singleton_ne. intros Heq.
  apply (f_equal String.length) in Heq.
  rewrite !length_lower, length_app_string in Heq.
  destruct (PyStr.replace "_API_KEY" "" suffix); [congruence|].
  cbn in Heq. lia.
Qed.

(** C8: for the environment variable [GEMINI_API_KEY_1],
    [CredentialManager._discover_api_keys] files the credential under
    the provider name [gemini_1] and nothing under [gemini], while the
    start-up loop of the proxy files the same variable under [gemini]. *)
Theorem discover_api_keys_numbered_variable :
  let environment := [("GEMINI_API_KEY_1", "secret-1")]%string in
  CredentialManager._discover_api_keys environment !! "gemini"%string = None
  /\ CredentialManager._discover_api_keys environment !! "gemini_1"%string
     = Some ["env://GEMINI_API_KEY_1"%string]
  /\ ProxyMain.api_keys environment !! "gemini"%string = Some ["secret-1"%string].
Proof. vm_compute. repeat split; reflexivity. Qed.

(** ** Failure backoff *)

(** C1: when the token endpoint answers HTTP 500 to the three attempts of
    a refresh, [_refresh_token] raises the status error and leaves the
    failure counter and the backoff timer of the credential unset, so
    that an automated refresh asked for at once is queued. *)
Theorem refresh_server_errors_leave_no_backoff :
  forall initialize_token : QwenAuthBase -> string -> outcome Creds,
    let st := Samples.cached (Samples.creds_at 0) in
    let env := Samples.world (fun _ => StatusError 500 (Some 60)) in
    exists st',
      _refresh_token initialize_token st Samples.path false env
      = Raised (HTTPStatusError 500) st'
      /\ _refresh_failures st' !! Samples.path = None
      /\ _next_refresh_after st' !! Samples.path = None
      /\ _refresh_queue (_queue_refresh st' Samples.path false false 1000 1000)
         = [(Samples.path, false, false)].
Proof.
  intros initialize_token. eexists. split; [vm_compute; reflexivity|].
  vm_compute. repeat split; reflexivity.
Qed.

(** C6: when the token endpoint answers 200 with an empty access token,
    [_refresh_token] raises [ValueError] and writes no file, and it leaves
    the failure counter and the backoff timer of the credential unset;
    the cached credential now holds the empty token. *)
Theorem refresh_empty_token_leaves_no_backoff :
  forall initialize_token : QwenAuthBase -> string -> outcome Creds,
    let st := Samples.cached (Samples.creds_at 0) in
    let env :=
      Samples.world
        (fun _ => OkJson (Some (JObject (Samples.token (Val EmptyString) 3600)))) in
    exists st',
      _refresh_token initialize_token st Samples.path false env
      = Raised ValueError st'
      /\ fs st' = fs st
      /\ _refresh_failures st' !! Samples.path = None
      /\ _next_refresh_after st' !! Samples.path = None
      /\ access_token <$> (_credentials_cache st' !! Samples.path)
         = Some (Val EmptyString).
Proof.
  intros initialize_token. eexists. split; [vm_compute; reflexivity|].
  vm_compute. repeat split; reflexivity.
Qed.

(** What the two backoff statements leave behind: the counter grows by
    one and the timer is [now] plus [min(300, 30 * 2 ** counter)]. *)
Lemma record_failure_spec (st : QwenAuthBase) (path : string) (now : Q) :
  let failures := default 0 (_refresh_failures st !! path) + 1 in
  _refresh_failures (record_failure st path now) !! path = Some failures
  /\ _next_refresh_after (record_failure st path now) !! path
     = Some (now + inject_Z (Z.min 300 (30 * 2 ^ failures)))%Q.
Proof.
  cbn. split.
  - apply lookup_insert_eq.
  - rewrite !lookup_insert_eq. reflexivity.
Qed.

(** After the backoff statements have run at time [now], every automated
    request for a refresh made before [now + min(300, 30 * 2 ** counter)]
    is dropped. *)
Lemma backoff_suppresses_queue (st : QwenAuthBase) (path : string)
    (now now' now_marked : Q) (force : bool) :
  let failures := default 0 (_refresh_failures st !! path) + 1 in
  (now' < now + inject_Z (Z.min 300 (30 * 2 ^ failures)))%Q ->
  _queue_refresh (record_failure st path now) path force false now' now_marked
  = record_failure st path now.
Proof.
  intros failures Hlt. unfold _queue_refresh.
  destruct (record_failure_spec st path now) as [_ Htimer].
  rewrite Htimer. apply Qlt_bool_iff in Hlt. fold failures.
  now rewrite Hlt.
Qed.

(** Taking and giving back a free lock leaves the adapter as it was. *)
Lemma release_acquire (st : QwenAuthBase) (path : string) :
  path ∉ _refresh_locks_held st -> release path (acquire path st) = st.
Proof.
  intros Hfree. destruct st as [c held f n q qd u t r files].
  unfold release, acquire, set_refresh_locks_held. cbn in *. f_equal.
  apply set_eq. intros x.
  rewrite elem_of_difference, elem_of_union, elem_of_singleton.
  split; [intros [[->|Hx] Hne]; [done|assumption]|].
  intros Hx. split; [now right|]. intros ->. done.
Qed.

(** Whenever the retry loop is left by an exception, [_refresh_token]
    raises it and the adapter is exactly as before the call: no counter,
    no timer. *)
Lemma refresh_loop_raise_keeps_state
    (initialize_token : QwenAuthBase -> string -> outcome Creds)
    (st : QwenAuthBase) (path : string) (force : bool) (env : RefreshEnv)
    (c : Creds) (e : exn) :
  path ∉ _refresh_locks_held st ->
  _credentials_cache st !! path = Some c ->
  negb force && nonempty c && negb (_is_token_expired c (now_check env)) = false ->
  truthy (get (refresh_token c)) = true ->
  retry_loop (answers env) (seq 0 max_retries) None = LoopRaise e ->
  _refresh_token initialize_token st path force env = Raised e st.
Proof.
  intros Hfree Hc Hfresh Htok Hloop. unfold _refresh_token, with_lock.
  rewrite bool_decide_eq_false_2 by assumption.
  unfold refresh_token_locked. rewrite Hloop.
  change (_credentials_cache (acquire path st)) with (_credentials_cache st).
  rewrite Hc, Hfresh. cbn [bind]. rewrite Htok. cbn [negb].
  f_equal. now apply release_acquire.
Qed.

(** The retry loop ends without token data and without a request for
    re-authentication only when an attempt is answered by a JSON [null]:
    every other failure of the last attempt leaves the loop by an
    exception. *)
Lemma retry_loop_without_data (answers : nat -> HttpAnswer)
    (last_error : option exn) :
  retry_loop answers (seq 0 max_retries) None = LoopEnd None last_error false ->
  exists attempt, (attempt < max_retries)%nat /\ answers attempt = OkJson None.
Proof.
  unfold max_retries. cbn [seq retry_loop].
  change (0 <? 3 - 1)%nat with true. change (1 <? 3 - 1)%nat with true.
  change (2 <? 3 - 1)%nat with false.
  destruct (answers 0%nat) as [[b0|]| |code0 [r0|]|] eqn:H0; cbn;
    try discriminate; try (intros _; exists 0%nat; split; [lia|assumption]);
    repeat match goal with
           | |- context [if ?b then _ else _] => destruct b; cbn
           end; try discriminate;
  (destruct (answers 1%nat) as [[b1|]| |code1 [r1|]|] eqn:H1; cbn;
    try discriminate; try (intros _; exists 1%nat; split; [lia|assumption]);
    repeat match goal with
           | |- context [if ?b then _ else _] => destruct b; cbn
           end; try discriminate;
   (destruct (answers 2%nat) as [[b2|]| |code2 [r2|]|] eqn:H2; cbn;
    try discriminate; try (intros _; exists 2%nat; split; [lia|assumption]);
    repeat match goal with
           | |- context [if ?b then _ else _] => destruct b; cbn
           end; discriminate)).
Qed.

(** When [apply_token_data] returns, the failure counter and the backoff
    timer of the path are cleared. *)
Lemma apply_token_data_clears (st st' : QwenAuthBase) (path : string)
    (c new : Creds) (d : TokenData) (env : RefreshEnv) :
  apply_token_data st path c d env = Returned new st' ->
  _refresh_failures st' !! path = None
  /\ _next_refresh_after st' !! path = None.
Proof.
  unfold apply_token_data, _save_credentials.
  destruct (td_access_token d) eqn:Ha; cbn; try discriminate;
  destruct (refresh_token c) eqn:Hr; cbn; try discriminate;
  destruct (td_expires_in d); cbn; try discriminate;
  repeat match goal with
         | |- context [if ?b then _ else _] => destruct b eqn:?; cbn
         | |- context [match write ?e with _ => _ end] => destruct (write e); cbn
         end; try discriminate;
  intros H; inversion H; subst; clear H; cbn;
  rewrite ?lookup_delete_eq; auto.
Qed.

(** A refresh that returns, other than by handing back a cached
    credential that is still valid, leaves the failure counter and the
    backoff timer of the path cleared: after a token response as after a
    re-authentication. *)
Lemma refresh_success_clears_backoff
    (initialize_token : QwenAuthBase -> string -> outcome Creds)
    (st st' : QwenAuthBase) (path : string) (force : bool) (env : RefreshEnv)
    (new : Creds) :
  match _credentials_cache st !! path with
  | Some c => negb force && nonempty c && negb (_is_token_expired c (now_check env))
  | None => false
  end = false ->
  _refresh_token initialize_token st path force env = Returned new st' ->
  _refresh_failures st' !! path = None
  /\ _next_refresh_after st' !! path = None.
Proof.
  intros Hfresh. unfold _refresh_token, with_lock.
  destruct (bool_decide (path ∈ _refresh_locks_held st)); [discriminate|].
  unfold refresh_token_locked.
  change (_credentials_cache (acquire path st)) with (_credentials_cache st).
  destruct (retry_loop (answers env) (seq 0 max_retries) None)
    as [data last_error needs_reauth|e] eqn:Hloop.
  - destruct (_credentials_cache st !! path) as [c|] eqn:Hc.
    + rewrite Hfresh. cbn [bind].
      destruct (negb (truthy (get (refresh_token c)))); [discriminate|].
      destruct needs_reauth.
      * destruct (initialize_token (acquire path st) path) as [n s|e s|s];
          try discriminate.
        intros H; inversion H; subst; clear H. cbn.
        rewrite !lookup_delete_eq. auto.
      * destruct data as [[d|]|]; try discriminate.
        destruct (apply_token_data (acquire path st) path c d env)
          as [n s|e s|s] eqn:Happ; try discriminate.
        intros H; inversion H; subst; clear H.
        apply apply_token_data_clears in Happ. exact Happ.
    + unfold _read_creds_from_file.
      change (fs (acquire path st)) with (fs st).
      destruct (fs st !! path) as [[c|]|]; cbn [bind]; try discriminate.
      destruct (negb (truthy (get (refresh_token c)))); [discriminate|].
      destruct needs_reauth.
      * match goal with
        | |- context [initialize_token ?s path] =>
            destruct (initialize_token s path) as [n s1|e s1|s1]
        end; try discriminate.
        intros H; inversion H; subst; clear H. cbn.
        rewrite !lookup_delete_eq. auto.
      * destruct data as [[d|]|]; try discriminate.
        match goal with
        | |- context [apply_token_data ?s path c d env] =>
            destruct (apply_token_data s path c d env)
              as [n s1|e s1|s1] eqn:Happ
        end; try discriminate.
        intros H; inversion H; subst; clear H.
        apply apply_token_data_clears in Happ. exact Happ.
  - destruct (_credentials_cache st !! path) as [c|] eqn:Hc.
    + rewrite Hfresh. cbn [bind].
      destruct (negb (truthy (get (refresh_token c)))); discriminate.
    + unfold _read_creds_from_file.
      change (fs (acquire path st)) with (fs st).
      destruct (fs st !! path) as [[c|]|]; cbn [bind]; try discriminate.
      destruct (negb (truthy (get (refresh_token c)))); discriminate.
Qed.

(** ** Expiry across refreshes *)

(** What [apply_token_data] returns when it returns: the dictionary with
    the new expiry, which is also the one cached under the path. *)
Lemma apply_token_data_returned (st st' : QwenAuthBase) (path : string)
    (c new : Creds) (d : TokenData) (env : RefreshEnv) (expires_in : Q) :
  td_expires_in d = Some expires_in ->
  apply_token_data st path c d env = Returned new st' ->
  expiry_date new = Some ((now_expiry env + expires_in) * 1000)%Q
  /\ _credentials_cache st' !! path = Some new
  /\ _refresh_failures st' !! path = None
  /\ _next_refresh_after st' !! path = None.
Proof.
  intros Hexp. unfold apply_token_data, _save_credentials. rewrite Hexp.
  destruct (td_access_token d) eqn:Ha; cbn; try discriminate;
  destruct (refresh_token c) eqn:Hr; cbn; try discriminate;
  repeat match goal with
         | |- context [if ?b then _ else _] => destruct b eqn:?; cbn
         | |- context [match write ?e with _ => _ end] => destruct (write e); cbn
         end; try discriminate;
  intros H; inversion H; subst; clear H; cbn;
  rewrite ?lookup_insert_eq, ?lookup_delete_eq; auto.
Qed.

(** C7, as amended: a successful refresh that was not forced, of a cached
    credential, through a token response whose [expires_in] is at least
    the refresh buffer of 10800 seconds, with a clock that does not run
    backwards between the expiry check and the update, does not reduce
    the stored expiry: either the credential is returned as it was, or
    its expiry becomes [(now + expires_in) * 1000]. *)
Theorem refresh_keeps_expiry
    (initialize_token : QwenAuthBase -> string -> outcome Creds)
    (st st' : QwenAuthBase) (path : string) (env : RefreshEnv)
    (old new : Creds) (d : TokenData) (last_error : option exn)
    (expires_in : Q) :
  _credentials_cache st !! path = Some old ->
  (now_check env <= now_expiry env)%Q ->
  retry_loop (answers env) (seq 0 max_retries) None
  = LoopEnd (Some (JObject d)) last_error false ->
  td_expires_in d = Some expires_in ->
  (inject_Z REFRESH_EXPIRY_BUFFER_SECONDS <= expires_in)%Q ->
  _refresh_token initialize_token st path false env = Returned new st' ->
  (expiry old <= expiry new)%Q
  /\ (new = old
      \/ expiry_date new = Some ((now_expiry env + expires_in) * 1000)%Q)
  /\ _credentials_cache st' !! path = Some new.
Proof.
  intros Hold Hclock Hloop Hexp Hbuf. unfold _refresh_token, with_lock.
  destruct (bool_decide (path ∈ _refresh_locks_held st)); [discriminate|].
  unfold refresh_token_locked. rewrite Hloop. cbn. rewrite Hold. cbn.
  destruct (nonempty old) eqn:Hne; cbn.
  - destruct (_is_token_expired old (now_check env)) eqn:Hx; cbn.
    + destruct (truthy (get (refresh_token old))); cbn; [|discriminate].
      destruct (apply_token_data (acquire path st) path old d env)
        as [c s| |] eqn:Happ; try discriminate.
      intros H; inversion H; subst; clear H.
      destruct (apply_token_data_returned _ _ _ _ _ _ _ _ Hexp Happ)
        as (Hnew & Hcache & _).
      split; [|split; [right; exact Hnew | exact Hcache]].
      unfold _is_token_expired in Hx. apply Qlt_bool_iff in Hx.
      unfold expiry. rewrite Hnew. cbn [default].
      change (default 0%Q (expiry_date old)) with (expiry old) in Hx.
      fold (expiry old).
      unfold REFRESH_EXPIRY_BUFFER_SECONDS in *.
      change (inject_Z (3 * 60 * 60)) with 10800%Q in *.
      unfold Qdiv in Hx. change (/ 1000)%Q with (1 # 1000)%Q in Hx. unfold id. lra.
    + intros H; inversion H; subst; clear H.
      split; [apply Qle_refl|]. split; [now left|]. exact Hold.
  - assert (Hr : refresh_token old = Absent).
    { unfold nonempty in Hne.
      destruct (access_token old), (refresh_token old); try discriminate.
      reflexivity. }
    rewrite Hr. cbn. discriminate.
Qed.

(** The amended C7 on a credential that expires in 8000 seconds and is
    refreshed with a lifetime of 10800 seconds. *)
Lemma refresh_keeps_expiry_witness :
  exists new st',
    _refresh_token Samples.failing_login
      (Samples.cached (Samples.creds_at 9000000)) Samples.path false
      (Samples.world
         (fun _ => OkJson (Some (JObject (Samples.token (Val "access-1"%string) 10800)))))
    = Returned new st'
    /\ (expiry (Samples.creds_at 9000000) <= expiry new)%Q.
Proof.
  eexists _, _. split.
  - vm_compute. reflexivity.
  - refine (proj1
      (refresh_keeps_expiry Samples.failing_login
         (Samples.cached (Samples.creds_at 9000000)) _ Samples.path
         (Samples.world
            (fun _ => OkJson (Some (JObject (Samples.token (Val "access-1"%string) 10800)))))
         (Samples.creds_at 9000000) _
         (Samples.token (Val "access-1"%string) 10800) None 10800
         _ _ _ _ _ _)).
    + vm_compute. reflexivity.
    + vm_compute. discriminate.
    + vm_compute. reflexivity.
    + reflexivity.
    + vm_compute. discriminate.
    + vm_compute. reflexivity.
Defined.

(** C7 as stated fails: a credential that expires in 8000 seconds, hence
    within the refresh buffer, is refreshed without force through a token
    response that grants 3600 seconds, and its stored expiry goes from
    9000000 down to 4600000. *)
Lemma refresh_can_reduce_expiry :
  ~ (forall (initialize_token : QwenAuthBase -> string -> outcome Creds)
            (st st' : QwenAuthBase) (path : string) (force : bool)
            (env : RefreshEnv) (old new : Creds),
        _credentials_cache st !! path = Some old ->
        _refresh_token initialize_token st path force env = Returned new st' ->
        (expiry old <= expiry new)%Q).
Proof.
  intros Hmono.
  set (env := Samples.world
                (fun _ => OkJson (Some (JObject (Samples.token (Val "access-1"%string) 3600))))).
  set (st := Samples.cached (Samples.creds_at 9000000)).
  destruct (_refresh_token Samples.failing_login st Samples.path false env)
    as [new st'| |] eqn:Hrun; try (vm_compute in Hrun; discriminate).
  assert (Hle : (expiry (Samples.creds_at 9000000) <= expiry new)%Q).
  { apply (Hmono Samples.failing_login st st' Samples.path false env);
      [vm_compute; reflexivity | exact Hrun]. }
  vm_compute in Hrun. inversion Hrun; subst new. clear -Hle.
  vm_compute in Hle. apply Hle. reflexivity.
Qed.

(** ** The queue worker and the per-credential lock *)

Lemma acquire_held (st : QwenAuthBase) (path : string) :
  path ∈ _refresh_locks_held (acquire path st).
Proof. cbn. apply elem_of_union_l, elem_of_singleton. reflexivity. Qed.

(** [_refresh_token] asks for the lock of its path first: called with that
    lock held, it waits for ever. *)
Lemma refresh_token_lock_held
    (initialize_token : QwenAuthBase -> string -> outcome Creds)
    (st : QwenAuthBase) (path : string) (force : bool) (env : RefreshEnv) :
  path ∈ _refresh_locks_held st ->
  _refresh_token initialize_token st path force env = Blocked st.
Proof.
  intros Hheld. unfold _refresh_token, with_lock.
  now rewrite bool_decide_eq_true_2.
Qed.

(** [_load_credentials] with the lock of its path held: it answers from
    the cache, or it waits for ever. *)
Lemma load_credentials_lock_held (environ : gmap string string)
    (float : string -> option Q) (st : QwenAuthBase) (path : string) (now : Q) :
  path ∈ _refresh_locks_held st ->
  _load_credentials environ float st path now
  = match _credentials_cache st !! path with
    | Some c => Returned c st
    | None => Blocked st
    end.
Proof.
  intros Hheld. unfold _load_credentials.
  destruct (_credentials_cache st !! path); [reflexivity|].
  unfold with_lock. now rewrite bool_decide_eq_true_2.
Qed.

(** One turn of the worker on an item whose lock is free: if the cached
    credential is a non-empty dictionary that is not expired, the item is
    completed without a refresh, whatever [force] is; otherwise the worker
    holds the lock of the path and waits for ever for the same lock, in
    [_refresh_token] when the path is cached and in [_load_credentials]
    when it is not. *)
Lemma worker_turn_cases (environ : gmap string string)
    (float : string -> option Q)
    (initialize_token : QwenAuthBase -> string -> outcome Creds)
    (st : QwenAuthBase) (now now_load : Q) (env : RefreshEnv)
    (path : string) (force needs_reauth : bool)
    (rest : list (string * bool * bool)) :
  _refresh_queue st = (path, force, needs_reauth) :: rest ->
  path ∉ _refresh_locks_held st ->
  process_refresh_queue_turn environ float initialize_token st now now_load env
  = match _credentials_cache st !! path with
    | Some c =>
        if nonempty c && negb (_is_token_expired c now)
        then Continues false
               (finally_cleanup path
                  (release path
                     (mark_available path
                        (acquire path (set_refresh_queue rest st)))))
        else Stuck true (acquire path (set_refresh_queue rest st))
    | None => Stuck false (acquire path (set_refresh_queue rest st))
    end.
Proof.
  intros Hq Hfree. unfold process_refresh_queue_turn. rewrite Hq.
  rewrite bool_decide_eq_false_2 by exact Hfree.
  pose proof (acquire_held (set_refresh_queue rest st) path) as Hheld.
  change (_credentials_cache (acquire path (set_refresh_queue rest st)))
    with (_credentials_cache st).
  destruct (_credentials_cache st !! path) as [c|] eqn:Hc.
  - destruct (nonempty c) eqn:Hne; cbn [andb].
    + destruct (negb (_is_token_expired c now)); [reflexivity|].
      now rewrite refresh_token_lock_held.
    + rewrite load_credentials_lock_held by exact Hheld.
      change (_credentials_cache (acquire path (set_refresh_queue rest st)))
        with (_credentials_cache st).
      rewrite Hc. now rewrite refresh_token_lock_held.
  - rewrite load_credentials_lock_held by exact Hheld.
    change (_credentials_cache (acquire path (set_refresh_queue rest st)))
      with (_credentials_cache st).
    now rewrite Hc.
Qed.

(** No turn of the worker gets through a call of [_refresh_token]. *)
Lemma worker_turn_never_refreshes (environ : gmap string string)
    (float : string -> option Q)
    (initialize_token : QwenAuthBase -> string -> outcome Creds)
    (st st' : QwenAuthBase) (now now_load : Q) (env : RefreshEnv) :
  process_refresh_queue_turn environ float initialize_token st now now_load env
  ≠ Continues true st'.
Proof.
  unfold process_refresh_queue_turn.
  destruct (_refresh_queue st) as [|[[path force] needs_reauth] rest] eqn:Hq;
    [discriminate|].
  destruct (bool_decide (path ∈ _refresh_locks_held (set_refresh_queue rest st)))
    eqn:Hlock; [discriminate|].
  apply bool_decide_eq_false in Hlock.
  pose proof (worker_turn_cases environ float initialize_token st now now_load
                env path force needs_reauth rest Hq Hlock) as Hcases.
  unfold process_refresh_queue_turn in Hcases. rewrite Hq in Hcases.
  rewrite bool_decide_eq_false_2 in Hcases by exact Hlock.
  rewrite Hcases.
  destruct (_credentials_cache st !! path) as [c|]; [|discriminate].
  destruct (nonempty c && negb (_is_token_expired c now)); discriminate.
Qed.

(** ** Admission to the refresh queue *)

(** The unavailable credentials are queued, in every reachable state. *)
Lemma unavailable_are_queued (environ : gmap string string)
    (float : string -> option Q)
    (initialize_token : QwenAuthBase -> string -> outcome Creds)
    (st : QwenAuthBase) :
  reachable environ float initialize_token st ->
  forall p, is_Some (_unavailable_credentials st !! p) ->
            p ∈ _queued_credentials st.
Proof.
  induction 1 as [files
                 |st path force needs_reauth now now_marked _ IH
                 |st path now _ IH
                 |st now now_load env _ IH
                 |st path _ IH
                 |st st' _ IH Hq Hu Ht]; intros p Hp.
  - cbn in Hp. rewrite lookup_empty in Hp. now destruct Hp.
  - unfold _queue_refresh in *.
    destruct (negb needs_reauth && _); [now apply IH|].
    destruct (bool_decide (path ∈ _queued_credentials st)); [now apply IH|].
    unfold _ensure_queue_processor_running in *. revert Hp. cbn.
    destruct (negb (_queue_processor_running st)); cbn; intros Hp;
    (apply lookup_insert_is_Some in Hp; apply elem_of_union;
     destruct Hp as [->|[_ Hp]]; [left; now apply elem_of_singleton|];
     right; now apply IH).
  - unfold is_credential_available in *.
    destruct (_unavailable_credentials st !! path); [|now apply IH].
    destruct (Qlt_bool _ _); [|now apply IH].
    cbn in *. apply lookup_delete_is_Some in Hp. now apply IH.
  - unfold process_refresh_queue_turn in *.
    destruct (_refresh_queue st) as [|[[path force] needs_reauth] rest] eqn:Hqueue.
    { cbn in Hp. rewrite lookup_empty in Hp. now destruct Hp. }
    destruct (bool_decide (path ∈ _refresh_locks_held (set_refresh_queue rest st)))
      eqn:Hlock.
    { cbn in *. now apply IH. }
    apply bool_decide_eq_false in Hlock.
    pose proof (worker_turn_cases environ float initialize_token st now now_load
                  env path force needs_reauth rest Hqueue Hlock) as Hcases.
    unfold process_refresh_queue_turn in Hcases. rewrite Hqueue in Hcases.
    rewrite bool_decide_eq_false_2 in Hcases by exact Hlock.
    rewrite Hcases in *. clear Hcases.
    destruct (_credentials_cache st !! path) as [c|]; [|cbn in *; now apply IH].
    destruct (nonempty c && negb (_is_token_expired c now));
      [|cbn in *; now apply IH].
    cbn in *. apply lookup_delete_is_Some in Hp. destruct Hp as [Hne Hp].
    apply lookup_delete_is_Some in Hp. destruct Hp as [_ Hp].
    apply elem_of_difference. split; [now apply IH|].
    intros Hin. apply elem_of_singleton in Hin. congruence.
  - cbn in *. apply lookup_delete_is_Some in Hp. destruct Hp as [Hne Hp].
    apply lookup_delete_is_Some in Hp. destruct Hp as [_ Hp].
    apply elem_of_difference. split; [now apply IH|].
    intros Hin. apply elem_of_singleton in Hin. congruence.
  - rewrite Hq. apply IH. now rewrite <- Hu.
Qed.

(** The TTL is the one of the constructor in every reachable state. *)
Lemma reachable_ttl (environ : gmap string string)
    (float : string -> option Q)
    (initialize_token : QwenAuthBase -> string -> outcome Creds)
    (st : QwenAuthBase) :
  reachable environ float initialize_token st ->
  _unavailable_ttl_seconds st = 300.
Proof.
  induction 1 as [files
                 |st path force needs_reauth now now_marked _ IH
                 |st path now _ IH
                 |st now now_load env _ IH
                 |st path _ IH
                 |st st' _ IH Hq Hu Ht].
  - reflexivity.
  - unfold _queue_refresh.
    destruct (negb needs_reauth && _); [exact IH|].
    destruct (bool_decide (path ∈ _queued_credentials st)); [exact IH|].
    unfold _ensure_queue_processor_running. cbn.
    destruct (negb (_queue_processor_running st)); exact IH.
  - unfold is_credential_available.
    destruct (_unavailable_credentials st !! path); [|exact IH].
    destruct (Qlt_bool _ _); exact IH.
  - unfold process_refresh_queue_turn.
    destruct (_refresh_queue st) as [|[[path force] needs_reauth] rest] eqn:Hqueue;
      [exact IH|].
    destruct (bool_decide (path ∈ _refresh_locks_held (set_refresh_queue rest st)))
      eqn:Hlock; [exact IH|].
    apply bool_decide_eq_false in Hlock.
    pose proof (worker_turn_cases environ float initialize_token st now now_load
                  env path force needs_reauth rest Hqueue Hlock) as Hcases.
    unfold process_refresh_queue_turn in Hcases. rewrite Hqueue in Hcases.
    rewrite bool_decide_eq_false_2 in Hcases by exact Hlock.
    rewrite Hcases. clear Hcases.
    destruct (_credentials_cache st !! path) as [c|]; [|exact IH].
    destruct (nonempty c && negb (_is_token_expired c now)); exact IH.
  - exact IH.
  - now rewrite Ht.
Qed.

(** C2: in every reachable state of the adapter, a call of
    [_queue_refresh] that needs no re-authentication and falls within the
    backoff window of the credential changes nothing; a call for a
    credential that is in the queued set or in the unavailable set
    changes nothing; and any other call appends the item to the queue,
    adds the credential to the queued set, marks it unavailable with the
    clock read at that moment, and leaves a worker running. *)
Theorem queue_refresh_admission (environ : gmap string string)
    (float : string -> option Q)
    (initialize_token : QwenAuthBase -> string -> outcome Creds)
    (st : QwenAuthBase) (path : string) (force needs_reauth : bool)
    (now now_marked : Q) :
  reachable environ float initialize_token st ->
  (needs_reauth = false ->
   (exists backoff_until,
       _next_refresh_after st !! path = Some backoff_until
       /\ (now < backoff_until)%Q) ->
   _queue_refresh st path force needs_reauth now now_marked = st)
  /\ (path ∈ _queued_credentials st
      \/ is_Some (_unavailable_credentials st !! path) ->
      _queue_refresh st path force needs_reauth now now_marked = st)
  /\ (~ (needs_reauth = false
         /\ exists backoff_until,
              _next_refresh_after st !! path = Some backoff_until
              /\ (now < backoff_until)%Q) ->
      path ∉ _queued_credentials st ->
      _unavailable_credentials st !! path = None ->
      let st' := _queue_refresh st path force needs_reauth now now_marked in
      _refresh_queue st' = _refresh_queue st ++ [(path, force, needs_reauth)]
      /\ _queued_credentials st' = {[path]} ∪ _queued_credentials st
      /\ _unavailable_credentials st'
         = <[path := now_marked]> (_unavailable_credentials st)
      /\ _queue_processor_running st' = true
      /\ _credentials_cache st' = _credentials_cache st
      /\ _next_refresh_after st' = _next_refresh_after st
      /\ _refresh_failures st' = _refresh_failures st).
Proof.
  intros Hreach. split; [|split].
  - intros -> (backoff_until & Hb & Hlt). unfold _queue_refresh.
    rewrite Hb. apply Qlt_bool_iff in Hlt. now rewrite Hlt.
  - intros Hin.
    assert (Hq : path ∈ _queued_credentials st).
    { destruct Hin as [Hq|Hu]; [exact Hq|].
      eapply unavailable_are_queued; eassumption. }
    unfold _queue_refresh. destruct (negb needs_reauth && _); [reflexivity|].
    now rewrite bool_decide_eq_true_2.
  - intros Hback Hq Hu. unfold _queue_refresh.
    assert (Hb : negb needs_reauth &&
                 match _next_refresh_after st !! path with
                 | Some backoff_until => Qlt_bool now backoff_until
                 | None => false
                 end = false).
    { destruct needs_reauth; [reflexivity|]. cbn.
      destruct (_next_refresh_after st !! path) as [b|] eqn:Hb; [|reflexivity].
      destruct (Qlt_bool now b) eqn:Hlt; [|reflexivity].
      exfalso. apply Hback. split; [reflexivity|].
      exists b. split; [reflexivity|]. now apply Qlt_bool_iff. }
    rewrite Hb. rewrite bool_decide_eq_false_2 by exact Hq.
    unfold _ensure_queue_processor_running. cbn.
    destruct (negb (_queue_processor_running st)) eqn:Hrun; cbn;
      repeat split; try reflexivity.
    now apply negb_false_iff in Hrun.
Qed.

(** C2 on a credential that a first call has queued and marked
    unavailable: a second call, even one that asks for re-authentication,
    is dropped. *)
Lemma queue_refresh_admission_witness :
  reachable ∅ Samples.float Samples.failing_login
    (_queue_refresh (init ∅) Samples.path false false 100 100)
  /\ _queue_refresh (_queue_refresh (init ∅) Samples.path false false 100 100)
       Samples.path true true 200 200
     = _queue_refresh (init ∅) Samples.path false false 100 100.
Proof.
  split.
  - apply reach_queue_refresh, reach_init.
  - refine (proj1 (proj2
      (queue_refresh_admission ∅ Samples.float Samples.failing_login
         (_queue_refresh (init ∅) Samples.path false false 100 100)
         Samples.path true true 200 200 _)) _).
    + apply reach_queue_refresh, reach_init.
    + right. exists 100%Q. vm_compute. reflexivity.
Defined.

(** C3: the worker pops an item with [force] true for a cached credential
    that is not expired; it marks the credential available and completes
    the item without calling [_refresh_token], the cached credential
    staying as it was. *)
Theorem worker_turn_ignores_force :
  forall (environ : gmap string string) (float : string -> option Q)
         (initialize_token : QwenAuthBase -> string -> outcome Creds)
         (env : RefreshEnv),
    let st := _queue_refresh (Samples.cached (Samples.creds_at 100000000))
                Samples.path true false 1000 1000 in
    _refresh_queue st = [(Samples.path, true, false)]
    /\ _is_token_expired (Samples.creds_at 100000000) 1000 = false
    /\ exists st',
         process_refresh_queue_turn environ float initialize_token
           st 1000 1000 env
         = Continues false st'
         /\ _refresh_queue st' = []
         /\ _unavailable_credentials st' = ∅
         /\ _queued_credentials st' = ∅
         /\ _credentials_cache st' !! Samples.path
            = Some (Samples.creds_at 100000000).
Proof.
  intros environ float initialize_token env. cbv zeta.
  split; [vm_compute; reflexivity|]. split; [vm_compute; reflexivity|].
  eexists. split; [vm_compute; reflexivity|].
  vm_compute. repeat split; reflexivity.
Qed.

(** ** The re-authentication coordinator *)

Lemma create_task_invariant (s : Reauth.Coordinator) (caller : nat) (id : string) :
  Reauth.invariant s ->
  Reauth.lock_owner s = None ->
  Reauth.invariant (Reauth.create_task caller id s).
Proof.
  intros (Hlive & Hfin & Hlock) Hfree. rewrite Hfree in Hlock.
  destruct Hlock as (Htasks & Hnone & Hcalls).
  unfold Reauth.invariant. cbn. rewrite Htasks, Hnone.
  split; [|split].
  - intros t Ht. apply elem_of_union in Ht.
    destruct Ht as [Ht|Ht]; [|now apply not_elem_of_empty in Ht].
    apply elem_of_singleton in Ht. subst t. split; [lia|].
    destruct (Reauth.finished s !! Reauth.next_task s) eqn:E; [|reflexivity].
    assert (Reauth.next_task s < Reauth.next_task s)%nat; [|lia].
    apply Hfin. now rewrite E.
  - intros t Ht. apply Hfin in Ht. lia.
  - exists id, (Reauth.next_task s). split; [apply lookup_insert_eq|].
    split; [reflexivity|]. split; [now rewrite union_empty_r_L|].
    intros c id' ph Hne Hc. rewrite lookup_insert_ne in Hc by congruence.
    eapply Hcalls; eassumption.
Qed.

(** A pending call waits for the lock, unless it owns the lock and waits
    for the task it created. *)
Lemma call_phase (s : Reauth.Coordinator) (c : nat) (id : string)
    (ph : Reauth.phase) :
  Reauth.invariant s ->
  Reauth.calls s !! c = Some (id, ph) ->
  ph = Reauth.AwaitingLock
  \/ exists t,
       ph = Reauth.Owning t
       /\ Reauth.lock_owner s = Some c
       /\ Reauth._active_reauth_tasks s = {[id := t]}
       /\ Reauth.live s ⊆ {[t]}
       /\ forall c' id' ph',
            c' ≠ c -> Reauth.calls s !! c' = Some (id', ph') ->
            ph' = Reauth.AwaitingLock.
Proof.
  intros (_ & _ & Hlock) Hc. destruct (Reauth.lock_owner s) as [o|].
  - destruct Hlock as (id0 & t & Ho & Htasks & Hlive & Hothers).
    destruct (decide (c = o)) as [->|Hne].
    + rewrite Ho in Hc. inversion Hc; subst. right. exists t. auto.
    + left. eapply Hothers; eassumption.
  - destruct Hlock as (_ & _ & Hcalls). left. eapply Hcalls; eassumption.
Qed.

Lemma step_invariant (s s' : Reauth.Coordinator) (e : Reauth.event) :
  Reauth.invariant s ->
  Reauth.step s e = Some s' ->
  Reauth.invariant s'.
Proof.
  intros Hinv Hstep. destruct e as [c p n|c|t a|c|c]; cbn in Hstep.
  - destruct (Reauth.calls s !! c) eqn:Hc; [discriminate|].
    inversion Hstep; subst s'; clear Hstep.
    destruct Hinv as (Hlive & Hfin & Hlock).
    unfold Reauth.invariant. cbn. split; [exact Hlive|]. split; [exact Hfin|].
    destruct (Reauth.lock_owner s) as [o|].
    + destruct Hlock as (id & t & Ho & Htasks & Hl & Hothers).
      exists id, t. split.
      { rewrite lookup_insert_ne; [exact Ho|]. intros ->. congruence. }
      split; [exact Htasks|]. split; [exact Hl|].
      intros c' id' ph' Hne Hc'. rewrite lookup_insert in Hc'.
      case_decide; [now inversion Hc'|]. eapply Hothers; eassumption.
    + destruct Hlock as (Htasks & Hl & Hcalls).
      split; [exact Htasks|]. split; [exact Hl|].
      intros c' id' ph' Hc'. rewrite lookup_insert in Hc'.
      case_decide; [now inversion Hc'|]. eapply Hcalls; eassumption.
  - destruct (Reauth.calls s !! c) as [[id ph]|] eqn:Hc; [|discriminate].
    destruct ph; try discriminate.
    destruct (Reauth.lock_owner s) eqn:Hfree; [discriminate|].
    assert (Htasks : Reauth._active_reauth_tasks s !! id = None).
    { destruct Hinv as (_ & _ & Hlock). rewrite Hfree in Hlock.
      destruct Hlock as (-> & _). apply lookup_empty. }
    rewrite Htasks in Hstep. inversion Hstep; subst s'.
    now apply create_task_invariant.
  - destruct (bool_decide (t ∈ Reauth.live s)) eqn:Ht; [|discriminate].
    apply bool_decide_eq_true in Ht.
    inversion Hstep; subst s'; clear Hstep.
    destruct Hinv as (Hlive & Hfin & Hlock).
    unfold Reauth.invariant. cbn. split; [|split].
    + intros t' Ht'. apply elem_of_difference in Ht'. destruct Ht' as [Hin Hne].
      destruct (Hlive t' Hin) as [Hlt Hnone]. split; [exact Hlt|].
      rewrite lookup_insert_ne; [exact Hnone|].
      intros ->. apply Hne. now apply elem_of_singleton.
    + intros t' Ht'. apply lookup_insert_is_Some in Ht'.
      destruct Ht' as [<-|[_ Ht']]; [now apply Hlive|now apply Hfin].
    + destruct (Reauth.lock_owner s) as [o|].
      * destruct Hlock as (id & t0 & Ho & Htasks & Hl & Hothers).
        exists id, t0. split; [exact Ho|]. split; [exact Htasks|].
        split; [|exact Hothers].
        intros x Hx. apply elem_of_difference in Hx. apply Hl, Hx.
      * destruct Hlock as (_ & Hl & _). rewrite Hl in Ht.
        now apply not_elem_of_empty in Ht.
  - destruct (Reauth.calls s !! c) as [[id ph]|] eqn:Hc; [|discriminate].
    destruct (call_phase s c id ph Hinv Hc)
      as [->|(t & -> & Ho & Htasks & Hl & Hothers)]; [discriminate|].
    destruct (Reauth.finished s !! t) as [a|] eqn:Hfin_t; [|discriminate].
    inversion Hstep; subst s'; clear Hstep.
    destruct Hinv as (Hlive & Hfin & _).
    assert (Hempty : Reauth.live s = ∅).
    { apply set_eq. intros x. split; [|intros Hx; now apply not_elem_of_empty in Hx].
      intros Hx. pose proof (Hl x Hx) as Hxt. apply elem_of_singleton in Hxt.
      subst x. destruct (Hlive t Hx) as [_ Hnone]. congruence. }
    unfold Reauth.invariant. cbn. split; [exact Hlive|]. split; [exact Hfin|].
    split; [rewrite Htasks; apply delete_singleton_eq|]. split; [exact Hempty|].
    intros c' id' ph' Hc'. apply lookup_delete_Some in Hc'.
    destruct Hc' as [Hne Hc']. eapply Hothers; [|exact Hc']. congruence.
  - destruct (Reauth.calls s !! c) as [[id ph]|] eqn:Hc; [|discriminate].
    destruct (call_phase s c id ph Hinv Hc)
      as [->|(t & -> & Ho & Htasks & Hl & Hothers)]; [discriminate|].
    destruct (bool_decide (t ∈ Reauth.live s)) eqn:Ht; [|discriminate].
    inversion Hstep; subst s'; clear Hstep.
    destruct Hinv as (Hlive & Hfin & _).
    unfold Reauth.invariant. cbn. split; [|split].
    + intros t' Ht'. apply elem_of_difference in Ht'. destruct Ht' as [Hin Hne].
      exfalso. apply Hne. apply Hl, Hin.
    + intros t' Ht'. apply lookup_insert_is_Some in Ht'.
      destruct Ht' as [<-|[_ Ht']]; [|now apply Hfin].
      apply bool_decide_eq_true in Ht. now apply Hlive.
    + split; [rewrite Htasks; apply delete_singleton_eq|]. split.
      * apply set_eq. intros x.
        split; [|intros Hx; now apply not_elem_of_empty in Hx].
        intros Hx. apply elem_of_difference in Hx. destruct Hx as [Hin Hne].
        exfalso. apply Hne. apply Hl, Hin.
      * intros c' id' ph' Hc'. apply lookup_delete_Some in Hc'.
        destruct Hc' as [Hne Hc']. eapply Hothers; [|exact Hc']. congruence.
Qed.

Lemma init_invariant : Reauth.invariant Reauth.init.
Proof.
  unfold Reauth.invariant. cbn. split; [|split; [|split; [|split]]].
  - intros t Ht. now apply not_elem_of_empty in Ht.
  - intros t Ht. rewrite lookup_empty in Ht. now destruct Ht.
  - reflexivity.
  - reflexivity.
  - intros c id ph Hc. rewrite lookup_empty in Hc. discriminate.
Qed.

Lemma run_invariant (es : list Reauth.event) (s s' : Reauth.Coordinator) :
  Reauth.invariant s -> Reauth.run s es = Some s' -> Reauth.invariant s'.
Proof.
  revert s. induction es as [|e es IH]; intros s Hinv Hrun; cbn in Hrun.
  - now inversion Hrun; subst.
  - destruct (Reauth.step s e) as [s1|] eqn:Hstep; [|discriminate].
    eapply IH; [|exact Hrun]. eapply step_invariant; eassumption.
Qed.

Lemma reachable_invariant (s : Reauth.Coordinator) :
  Reauth.reachable s -> Reauth.invariant s.
Proof.
  intros [es Hrun]. eapply run_invariant; [apply init_invariant|exact Hrun].
Qed.

(** At most one interactive flow is in progress in any reachable state of
    the coordinator. *)
Lemma one_flow_at_a_time (s : Reauth.Coordinator) :
  Reauth.reachable s -> (size (Reauth.live s) <= 1)%nat.
Proof.
  intros Hreach. destruct (reachable_invariant s Hreach) as (_ & _ & Hlock).
  destruct (Reauth.lock_owner s).
  - destruct Hlock as (id & t & _ & _ & Hl & _).
    apply subseteq_size in Hl. now rewrite size_singleton in Hl.
  - destruct Hlock as (_ & -> & _). rewrite size_empty. lia.
Qed.

(** No call of [execute_reauth] is ever waiting for a task created by
    another call. *)
Lemma no_call_joins (s : Reauth.Coordinator) (c : nat) (id : string) (t : nat) :
  Reauth.reachable s -> Reauth.calls s !! c ≠ Some (id, Reauth.Joined t).
Proof.
  intros Hreach Hc.
  destruct (call_phase s c id _ (reachable_invariant s Hreach) Hc)
    as [H|(t' & H & _)]; discriminate.
Qed.

(** Every call that gets the lock creates a task of its own: the number
    of flows started grows by one. *)
Lemma enter_starts_flow (s s' : Reauth.Coordinator) (c : nat) :
  Reauth.reachable s ->
  Reauth.step s (Reauth.Enter c) = Some s' ->
  Reauth.next_task s' = S (Reauth.next_task s)
  /\ Reauth.live s' = {[Reauth.next_task s]}
  /\ exists id, Reauth.calls s' !! c = Some (id, Reauth.Owning (Reauth.next_task s)).
Proof.
  intros Hreach Hstep. cbn in Hstep.
  destruct (Reauth.calls s !! c) as [[id ph]|] eqn:Hc; [|discriminate].
  destruct ph; try discriminate.
  destruct (Reauth.lock_owner s) eqn:Hfree; [discriminate|].
  destruct (reachable_invariant s Hreach) as (_ & _ & Hlock).
  rewrite Hfree in Hlock. destruct Hlock as (Htasks & Hl & _).
  rewrite Htasks, lookup_empty in Hstep. inversion Hstep; subst s'. cbn.
  split; [reflexivity|]. split; [rewrite Hl; apply union_empty_r_L|].
  exists id. apply lookup_insert_eq.
Qed.

(** A wait that times out cancels the flow and hands [TimeoutError] to
    the caller. *)
Lemma wait_times_out (s s' : Reauth.Coordinator) (c : nat) :
  Reauth.reachable s ->
  Reauth.step s (Reauth.WaitTimesOut c) = Some s' ->
  Reauth.answers s' !! c = Some Reauth.TimeoutError
  /\ Reauth.live s' = ∅
  /\ Reauth.lock_owner s' = None.
Proof.
  intros Hreach Hstep. cbn in Hstep.
  destruct (Reauth.calls s !! c) as [[id ph]|] eqn:Hc; [|discriminate].
  destruct (call_phase s c id ph (reachable_invariant s Hreach) Hc)
    as [->|(t & -> & _ & _ & Hl & _)]; [discriminate|].
  destruct (bool_decide (t ∈ Reauth.live s)); [|discriminate].
  inversion Hstep; subst s'; clear Hstep. cbn.
  split; [apply lookup_insert_eq|]. split; [|reflexivity].
  apply set_eq. intros x.
  split; [|intros Hx; now apply not_elem_of_empty in Hx].
  intros Hx. apply elem_of_difference in Hx. destruct Hx as [Hin Hne].
  exfalso. apply Hne. apply Hl, Hin.
Qed.

(** C5: two calls of [execute_reauth] for the same credential of the same
    provider overlap.  While the flow of the first is in progress the
    second cannot get past the lock; once the first has returned, the
    second finds no registered task and starts a flow of its own, the
    second one for that identifier. *)
Theorem second_reauth_call_starts_second_flow :
  let path := "oauth_creds/qwen_code_oauth_1.json"%string in
  let id := "QWEN_CODE:qwen_code_oauth_1.json"%string in
  let overlap :=
    [Reauth.Call 1 path "QWEN_CODE"; Reauth.Call 2 path "QWEN_CODE";
     Reauth.Enter 1] in
  (exists s,
      Reauth.run Reauth.init overlap = Some s
      /\ Reauth.calls s !! 1%nat = Some (id, Reauth.Owning 0)
      /\ Reauth.calls s !! 2%nat = Some (id, Reauth.AwaitingLock)
      /\ Reauth.live s = {[0%nat]}
      /\ Reauth.step s (Reauth.Enter 2) = None)
  /\ (exists s,
        Reauth.run Reauth.init
          (overlap ++ [Reauth.TaskEnds 0 Reauth.Result; Reauth.Return 1;
                       Reauth.Enter 2])
        = Some s
        /\ Reauth.answers s !! 1%nat = Some Reauth.Result
        /\ Reauth.calls s !! 2%nat = Some (id, Reauth.Owning 1)
        /\ Reauth.live s = {[1%nat]}
        /\ Reauth.next_task s = 2%nat).
Proof.
  cbv zeta. split.
  - eexists. split; [vm_compute; reflexivity|].
    vm_compute. repeat split; reflexivity.
  - eexists. split; [vm_compute; reflexivity|].
    vm_compute. repeat split; reflexivity.
Qed.

(** * Further properties of the code *)

(** ** Discovery of API keys, for every environment *)

(** A loop that appends one element to the list filed under a key for the
    items that pass a test, seen from one key: the elements of the items
    that pass the test and carry that key are appended in order. *)
Lemma grouping_fold {A : Type} (test : string * string -> bool)
    (key_of : string * string -> string) (element_of : string * string -> A)
    (step : gmap string (list A) -> string * string -> gmap string (list A))
    (items : list (string * string)) (acc : gmap string (list A)) (p : string) :
  (forall acc item,
      step acc item
      = if test item
        then <[key_of item :=
                 default [] (acc !! key_of item) ++ [element_of item]]> acc
        else acc) ->
  foldl step acc items !! p
  = match acc !! p,
          element_of <$>
            filter (fun item => test item = true /\ key_of item = p) items with
    | None, [] => None
    | o, l => Some (default [] o ++ l)
    end.
Proof.
  intros Hstep. revert acc.
  induction items as [|item items IH]; intros acc.
  - cbn. destruct (acc !! p) as [l|]; [|reflexivity].
    cbn. now rewrite app_nil_r.
  - cbn [foldl]. rewrite IH, Hstep. clear IH.
    destruct (test item) eqn:Htest.
    + destruct (decide (key_of item = p)) as [Hp|Hp].
      * rewrite filter_cons_True by (split; assumption).
        rewrite Hp, lookup_insert_eq. cbn [fmap list_fmap].
        destruct (acc !! p); unfold default, id; cbn [from_option];
          now rewrite <- app_assoc.
      * rewrite filter_cons_False by (intros [_ H]; contradiction).
        rewrite lookup_insert_ne by exact Hp. reflexivity.
    + rewrite filter_cons_False by (intros [H _]; congruence). reflexivity.
Qed.

Lemma file_under_key {A : Type} (acc : gmap string (list A)) (k : string) (x : A) :
  <[k := default []
           (match acc !! k with
            | None => <[k := []]> acc
            | Some _ => acc
            end !! k) ++ [x]]>
    match acc !! k with
    | None => <[k := []]> acc
    | Some _ => acc
    end
  = <[k := default [] (acc !! k) ++ [x]]> acc.
Proof.
  destruct (acc !! k) as [l|] eqn:Hk.
  - now rewrite Hk.
  - now rewrite lookup_insert_eq, insert_insert_eq.
Qed.

(** The start-up loop of the proxy, for every environment and every
    provider name: the keys filed under the name are the values of the
    variables whose name holds [_API_KEY], is not [PROXY_API_KEY] and has
    that name, in lower case, before its first [_API_KEY]; they come in
    the order of the environment, and a name with no such variable has no
    entry. *)
Theorem main_api_keys_lookup (environ : list (string * string)) (p : string) :
  ProxyMain.api_keys environ !! p
  = match snd <$>
            filter
              (fun item : string * string =>
                 PyStr.contains "_API_KEY" item.1
                 && negb (String.eqb item.1 "PROXY_API_KEY") = true
                 /\ PyStr.lower
                      (default EmptyString (head (PyStr.split "_API_KEY" item.1)))
                    = p)
              environ with
    | [] => None
    | l => Some l
    end.
Proof.
  unfold ProxyMain.api_keys.
  rewrite (grouping_fold
             (fun item => PyStr.contains "_API_KEY" item.1
                          && negb (String.eqb item.1 "PROXY_API_KEY"))
             (fun item => PyStr.lower
                            (default EmptyString
                               (head (PyStr.split "_API_KEY" item.1))))
             snd).
  - rewrite lookup_empty. now destruct (snd <$> filter _ environ).
  - intros acc [key value]. unfold ProxyMain.discover_api_key. cbn [fst snd].
    destruct (PyStr.contains "_API_KEY" key && _); [|reflexivity].
    apply file_under_key.
Qed.

(** [_discover_api_keys], for every environment and every provider name:
    the identifiers filed under the name are [env://] followed by the
    names of the variables that hold [_API_KEY], are not [PROXY_API_KEY]
    and give that name once every [_API_KEY] is taken out and the rest is
    put in lower case; they come in the order of the environment. *)
Theorem manager_discover_api_keys_lookup (environment : list (string * string))
    (p : string) :
  CredentialManager._discover_api_keys environment !! p
  = match (fun item : string * string => "env://" +:+ item.1) <$>
            filter
              (fun item : string * string =>
                 PyStr.contains "_API_KEY" item.1
                 && negb (String.eqb item.1 "PROXY_API_KEY") = true
                 /\ PyStr.lower (PyStr.replace "_API_KEY" "" item.1) = p)
              environment with
    | [] => None
    | l => Some l
    end.
Proof.
  unfold CredentialManager._discover_api_keys.
  rewrite (grouping_fold
             (fun item => PyStr.contains "_API_KEY" item.1
                          && negb (String.eqb item.1 "PROXY_API_KEY"))
             (fun item => PyStr.lower (PyStr.replace "_API_KEY" "" item.1))
             (fun item => "env://" +:+ item.1)).
  - rewrite lookup_empty. now destruct (_ <$> filter _ environment).
  - intros acc [key value]. unfold CredentialManager.discover_api_key.
    cbn [fst snd].
    destruct (PyStr.contains "_API_KEY" key && _); [|reflexivity].
    apply file_under_key.
Qed.

(** [_discover_api_keys] never files the key of the proxy itself as a
    credential of a provider, whatever the environment. *)
Theorem manager_never_files_proxy_key (environment : list (string * string))
    (p : string) (identifiers : list string) :
  CredentialManager._discover_api_keys environment !! p = Some identifiers ->
  "env://PROXY_API_KEY"%string ∉ identifiers.
Proof.
  rewrite manager_discover_api_keys_lookup. intros Hl Hin.
  assert (Hin' : "env://PROXY_API_KEY"%string
                 ∈ (fun item : string * string => "env://" +:+ item.1) <$>
                     filter
                       (fun item : string * string =>
                          PyStr.contains "_API_KEY" item.1
                          && negb (String.eqb item.1 "PROXY_API_KEY") = true
                          /\ PyStr.lower (PyStr.replace "_API_KEY" "" item.1) = p)
                       environment).
  { destruct (_ <$> filter _ environment); [discriminate|].
    inversion Hl; subst. exact Hin. }
  apply list_elem_of_fmap in Hin'. destruct Hin' as ([key value] & Heq & Hitem).
  apply list_elem_of_filter in Hitem. destruct Hitem as [[Htest _] _].
  cbn [fst] in *. apply (String.app_inj "env://") in Heq. subst key.
  vm_compute in Htest. discriminate.
Qed.

Lemma manager_never_files_proxy_key_witness :
  CredentialManager._discover_api_keys
    [("PROXY_API_KEY", "secret"); ("PROXY_API_KEY_2", "other")]%string
    !! "proxy_2"%string
  = Some ["env://PROXY_API_KEY_2"%string]
  /\ "env://PROXY_API_KEY"%string ∉ ["env://PROXY_API_KEY_2"%string].
Proof.
  split; [vm_compute; reflexivity|].
  apply (manager_never_files_proxy_key
           [("PROXY_API_KEY", "secret"); ("PROXY_API_KEY_2", "other")]%string
           "proxy_2").
  vm_compute. reflexivity.
Defined.

(** The start-up loop of the proxy files every variable
    [provider ++ "_API_KEY" ++ suffix] of the environment under
    [provider] in lower case, whatever the suffix, as long as no
    [_API_KEY] starts inside [provider]. *)
Theorem main_files_numbered_keys_together (environ : list (string * string))
    (provider suffix value : string) :
  PyStr.contains "_API_KEY" (provider +:+ "_API_KE") = false ->
  provider +:+ "_API_KEY" +:+ suffix ≠ "PROXY_API_KEY"%string ->
  (provider +:+ "_API_KEY" +:+ suffix, value) ∈ environ ->
  exists keys,
    ProxyMain.api_keys environ !! PyStr.lower provider = Some keys
    /\ value ∈ keys.
Proof.
  intros Hfree Hproxy Hin. rewrite main_api_keys_lookup.
  match goal with
  | |- context [snd <$> filter ?P environ] =>
      assert (Hv : value ∈ snd <$> filter P environ)
  end.
  { apply list_elem_of_fmap. exists (provider +:+ "_API_KEY" +:+ suffix, value).
    split; [reflexivity|]. apply list_elem_of_filter. split; [|exact Hin].
    cbn [fst]. split.
    - rewrite contains_first_occurrence. apply String.eqb_neq in Hproxy.
      now rewrite Hproxy.
    - unfold PyStr.split. now rewrite split_first_occurrence. }
  match goal with
  | |- context [snd <$> filter ?P environ] =>
      destruct (snd <$> filter P environ) as [|v l]
  end.
  - now apply not_elem_of_nil in Hv.
  - eexists. split; [reflexivity|exact Hv].
Qed.

Lemma main_files_numbered_keys_together_witness :
  exists keys,
    ProxyMain.api_keys
      [("GEMINI_API_KEY_1", "k1"); ("OPENAI_API_KEY", "k2");
       ("GEMINI_API_KEY_2", "k3")]%string !! PyStr.lower "GEMINI"
    = Some keys
    /\ "k3"%string ∈ keys.
Proof.
  apply (main_files_numbered_keys_together
           [("GEMINI_API_KEY_1", "k1"); ("OPENAI_API_KEY", "k2");
            ("GEMINI_API_KEY_2", "k3")]%string "GEMINI" "_2" "k3").
  - vm_compute. reflexivity.
  - vm_compute. discriminate.
  - vm_compute. right. right. left.
Defined.

(** ** Expiry test *)


(** ** Virtual paths *)

Lemma startswith_app_self (p rest : string) :
  PyStr.startswith p (p +:+ rest) = true.
Proof.
  induction p as [|c p IH]; [reflexivity|].
  rewrite app_cons. cbn. now rewrite Ascii.eqb_refl.
Qed.

Lemma drop_app_length (p rest : string) :
  PyStr.drop (String.length p) (p +:+ rest) = rest.
Proof.
  induction p as [|c p IH]; [now destruct rest|].
  rewrite app_cons. exact IH.
Qed.

(** Splitting at slashes a text that holds none gives the text. *)
Lemma split_slash_none (cur s : string) :
  PyStr.contains "/" s = false ->
  PyStr.split_scan "/" 0 cur s = [cur +:+ s].
Proof.
  revert cur. induction s as [|c s IH]; intros cur Hfree.
  - cbn. now rewrite app_empty_r.
  - cbn [PyStr.contains] in Hfree. apply orb_false_iff in Hfree.
    destruct Hfree as [Hhere Hfree]. cbn [PyStr.split_scan]. rewrite Hhere.
    rewrite IH by exact Hfree. f_equal.
    rewrite app_assoc_string. reflexivity.
Qed.

(** Splitting at slashes a text whose first slash comes after [a]. *)
Lemma split_slash_first (cur a b : string) :
  PyStr.contains "/" a = false ->
  PyStr.split_scan "/" 0 cur (a +:+ "/" +:+ b)
  = (cur +:+ a) :: PyStr.split_scan "/" 0 EmptyString b.
Proof.
  revert cur. induction a as [|c a IH]; intros cur Hfree.
  - change (EmptyString +:+ "/" +:+ b) with (String "/" b).
    cbn [PyStr.split_scan]. change (PyStr.startswith "/" (String "/" b)) with true.
    cbn [String.length Nat.sub]. now rewrite app_empty_r.
  - cbn [PyStr.contains] in Hfree. apply orb_false_iff in Hfree.
    destruct Hfree as [Hhere Hfree]. rewrite app_cons.
    cbn [PyStr.split_scan].
    assert (Hsw : PyStr.startswith "/" (String c (a +:+ "/" +:+ b)) = false).
    { cbn in Hhere |- *. exact Hhere. }
    rewrite Hsw, IH by exact Hfree. f_equal.
    rewrite app_assoc_string. reflexivity.
Qed.

(** [_parse_env_credential_path] reads back the index of a virtual path
    [env://provider/index], also when more components follow; it gives
    index 0 to a virtual path without a slash after the provider, and
    nothing to a path that does not start with [env://]. *)
Theorem parse_env_credential_path_index (provider index rest : string) :
  PyStr.contains "/" provider = false ->
  PyStr.contains "/" index = false ->
  _parse_env_credential_path ("env://" +:+ provider +:+ "/" +:+ index)
  = Some index
  /\ _parse_env_credential_path
       ("env://" +:+ provider +:+ "/" +:+ index +:+ "/" +:+ rest)
     = Some index
  /\ _parse_env_credential_path ("env://" +:+ provider) = Some "0"%string
  /\ (forall path,
         PyStr.startswith "env://" path = false ->
         _parse_env_credential_path path = None).
Proof.
  intros Hp Hi. unfold _parse_env_credential_path.
  repeat split.
  - rewrite startswith_app_self. cbn [negb].
    change 6%nat with (String.length "env://"). rewrite drop_app_length.
    unfold PyStr.split. rewrite split_slash_first by exact Hp.
    rewrite split_slash_none by exact Hi. reflexivity.
  - rewrite startswith_app_self. cbn [negb].
    change 6%nat with (String.length "env://"). rewrite drop_app_length.
    unfold PyStr.split. rewrite split_slash_first by exact Hp.
    rewrite split_slash_first by exact Hi. reflexivity.
  - rewrite startswith_app_self. cbn [negb].
    change 6%nat with (String.length "env://"). rewrite drop_app_length.
    unfold PyStr.split. rewrite split_slash_none by exact Hp. reflexivity.
  - intros path Hpath. now rewrite Hpath.
Qed.

Lemma parse_env_credential_path_index_witness :
  _parse_env_credential_path ("env://" +:+ "qwen_code" +:+ "/" +:+ "2")
  = Some "2"%string.
Proof.
  refine (proj1 (parse_env_credential_path_index "qwen_code" "2" "" _ _));
    vm_compute; reflexivity.
Defined.

(** ** Loading credentials *)

(** What [_load_credentials] leaves behind, however it ends: when it
    returns a credential, that credential is cached under the path; the
    queue, the two sets of the queue, the counters, the timers, the locks
    and the file system are as before. *)
Lemma load_credentials_effect (environ : gmap string string)
    (float : string -> option Q) (st : QwenAuthBase) (path : string) (now : Q) :
  let r := _load_credentials environ float st path now in
  (forall c st', r = Returned c st' -> _credentials_cache st' !! path = Some c)
  /\ (forall e st', r = Raised e st' -> e = IOError /\ st' = st)
  /\ (forall st', r = Blocked st' -> st' = st)
  /\ _refresh_queue (final_state r) = _refresh_queue st
  /\ _queued_credentials (final_state r) = _queued_credentials st
  /\ _unavailable_credentials (final_state r) = _unavailable_credentials st
  /\ _next_refresh_after (final_state r) = _next_refresh_after st
  /\ _refresh_failures (final_state r) = _refresh_failures st
  /\ _refresh_locks_held (final_state r) = _refresh_locks_held st
  /\ fs (final_state r) = fs st.
Proof.
  unfold _load_credentials.
  assert (Hdone : forall (r : outcome Creds),
             (forall c st', r = Returned c st' ->
                            _credentials_cache st' !! path = Some c) ->
             (forall e st', r = Raised e st' -> e = IOError /\ st' = st) ->
             (forall st', r = Blocked st' -> st' = st) ->
             _refresh_queue (final_state r) = _refresh_queue st ->
             _queued_credentials (final_state r) = _queued_credentials st ->
             _unavailable_credentials (final_state r)
             = _unavailable_credentials st ->
             _next_refresh_after (final_state r) = _next_refresh_after st ->
             _refresh_failures (final_state r) = _refresh_failures st ->
             _refresh_locks_held (final_state r) = _refresh_locks_held st ->
             fs (final_state r) = fs st ->
             let r' := r in
             (forall c st', r' = Returned c st' ->
                            _credentials_cache st' !! path = Some c)
             /\ (forall e st', r' = Raised e st' -> e = IOError /\ st' = st)
             /\ (forall st', r' = Blocked st' -> st' = st)
             /\ _refresh_queue (final_state r') = _refresh_queue st
             /\ _queued_credentials (final_state r') = _queued_credentials st
             /\ _unavailable_credentials (final_state r')
                = _unavailable_credentials st
             /\ _next_refresh_after (final_state r') = _next_refresh_after st
             /\ _refresh_failures (final_state r') = _refresh_failures st
             /\ _refresh_locks_held (final_state r') = _refresh_locks_held st
             /\ fs (final_state r') = fs st).
  { intros; repeat (split; [assumption|]); assumption. }
  assert (Hstored : forall c,
             let r : outcome Creds := Returned c (store st path c) in
             (forall c' st', r = Returned c' st' ->
                             _credentials_cache st' !! path = Some c')
             /\ (forall e st', r = Raised e st' -> e = IOError /\ st' = st)
             /\ (forall st', r = Blocked st' -> st' = st)
             /\ _refresh_queue (final_state r) = _refresh_queue st
             /\ _queued_credentials (final_state r) = _queued_credentials st
             /\ _unavailable_credentials (final_state r)
                = _unavailable_credentials st
             /\ _next_refresh_after (final_state r) = _next_refresh_after st
             /\ _refresh_failures (final_state r) = _refresh_failures st
             /\ _refresh_locks_held (final_state r) = _refresh_locks_held st
             /\ fs (final_state r) = fs st).
  { intros c. apply Hdone; try reflexivity; try discriminate.
    intros c' st' H. inversion H; subst. cbn. apply lookup_insert_eq. }
  assert (Hfailed :
             let r : outcome Creds := Raised IOError st in
             (forall c' st', r = Returned c' st' ->
                             _credentials_cache st' !! path = Some c')
             /\ (forall e st', r = Raised e st' -> e = IOError /\ st' = st)
             /\ (forall st', r = Blocked st' -> st' = st)
             /\ _refresh_queue (final_state r) = _refresh_queue st
             /\ _queued_credentials (final_state r) = _queued_credentials st
             /\ _unavailable_credentials (final_state r)
                = _unavailable_credentials st
             /\ _next_refresh_after (final_state r) = _next_refresh_after st
             /\ _refresh_failures (final_state r) = _refresh_failures st
             /\ _refresh_locks_held (final_state r) = _refresh_locks_held st
             /\ fs (final_state r) = fs st).
  { apply Hdone; try reflexivity; try discriminate.
    intros e st' H. inversion H; subst. now split. }
  destruct (_credentials_cache st !! path) as [c|] eqn:Hc.
  { apply Hdone; try reflexivity; try discriminate.
    intros c' st' H. inversion H; subst. exact Hc. }
  unfold with_lock.
  destruct (bool_decide (path ∈ _refresh_locks_held st)) eqn:Hlock.
  { apply Hdone; try reflexivity; try discriminate.
    intros st' H. now inversion H. }
  apply bool_decide_eq_false in Hlock.
  pose proof (release_acquire st path Hlock) as Hrel.
  change (_credentials_cache (acquire path st)) with (_credentials_cache st).
  rewrite Hc. unfold _read_creds_from_file.
  change (fs (acquire path st)) with (fs st).
  assert (Hstore : forall c,
             release path (store (acquire path st) path c) = store st path c).
  { intros c. rewrite <- Hrel at 2. reflexivity. }
  destruct (_parse_env_credential_path path) as [idx|].
  - destruct (_load_from_env environ float (Some idx) now) as [c|].
    + rewrite Hstore. apply Hstored.
    + rewrite Hrel. exact Hfailed.
  - destruct (_load_from_env environ float None now) as [c|].
    + rewrite Hstore. apply Hstored.
    + destruct (fs st !! path) as [[c|]|].
      * change (set_credentials_cache
                  (<[path:=c]> (_credentials_cache (acquire path st)))
                  (acquire path st))
          with (store (acquire path st) path c).
        rewrite Hstore. apply Hstored.
      * rewrite Hrel. exact Hfailed.
      * rewrite Hrel. exact Hfailed.
Qed.



(** With the unnumbered variables of the environment set, a load of a
    file path that is not cached returns the credential of the
    environment and caches it under the path; no file is read, so the
    result is the same whatever the file system holds, a missing file
    included. *)
Theorem load_credentials_environment_first (environ : gmap string string)
    (float : string -> option Q) (st : QwenAuthBase) (path : string) (now : Q)
    (c : Creds) :
  _parse_env_credential_path path = None ->
  _credentials_cache st !! path = None ->
  path ∉ _refresh_locks_held st ->
  _load_from_env environ float None now = Some c ->
  forall files,
    _load_credentials environ float (set_fs files st) path now
    = Returned c (store (set_fs files st) path c).
Proof.
  intros Hparse Hcache Hfree Henv files. unfold _load_credentials, with_lock.
  change (_credentials_cache (set_fs files st)) with (_credentials_cache st).
  rewrite Hcache.
  change (_refresh_locks_held (set_fs files st)) with (_refresh_locks_held st).
  rewrite bool_decide_eq_false_2 by exact Hfree.
  change (_credentials_cache (acquire path (set_fs files st)))
    with (_credentials_cache st).
  rewrite Hcache, Hparse, Henv. f_equal.
  rewrite <- (release_acquire (set_fs files st) path Hfree) at 2. reflexivity.
Qed.

Lemma load_credentials_environment_first_witness :
  exists c,
    _load_from_env
      {["QWEN_CODE_ACCESS_TOKEN"%string := "a"%string;
        "QWEN_CODE_REFRESH_TOKEN"%string := "r"%string]}
      Samples.float None 5
    = Some c
    /\ _load_credentials
         {["QWEN_CODE_ACCESS_TOKEN"%string := "a"%string;
           "QWEN_CODE_REFRESH_TOKEN"%string := "r"%string]}
         Samples.float
         (set_fs {[Samples.path := Some (Samples.creds_at 0)]} (init ∅))
         Samples.path 5
       = Returned c
           (store (set_fs {[Samples.path := Some (Samples.creds_at 0)]} (init ∅))
              Samples.path c).
Proof.
  eexists. split; [vm_compute; reflexivity|].
  apply (load_credentials_environment_first _ Samples.float (init ∅)
           Samples.path 5).
  - vm_compute. reflexivity.
  - vm_compute. reflexivity.
  - cbn. apply not_elem_of_empty.
  - vm_compute. reflexivity.
Defined.

(** ** Proactive refresh *)


(** [proactively_refresh] adds at most one item to the queue, the item
    [(identifier, False, False)], and adds none for a credential that is
    already queued: the ticks of the background refresher do not pile up
    requests for one credential. *)
Theorem proactively_refresh_queues_once (environ : gmap string string)
    (float : string -> option Q) (st : QwenAuthBase)
    (credential_identifier : string) (now_load now_expired now now_marked : Q) :
  let st' :=
    final_state
      (proactively_refresh environ float st credential_identifier
         now_load now_expired now now_marked) in
  (_refresh_queue st' = _refresh_queue st
   \/ _refresh_queue st'
      = _refresh_queue st ++ [(credential_identifier, false, false)])
  /\ (credential_identifier ∈ _queued_credentials st ->
      _refresh_queue st' = _refresh_queue st
      /\ _queued_credentials st' = _queued_credentials st
      /\ _unavailable_credentials st' = _unavailable_credentials st).
Proof.
  unfold proactively_refresh.
  destruct (load_credentials_effect environ float st credential_identifier now_load)
    as (_ & _ & _ & Hq & Hqd & Hu & Hn & _).
  destruct (_load_credentials environ float st credential_identifier now_load)
    as [c s|e s|s] eqn:Hload; cbn [final_state] in *.
  - destruct (_is_token_expired c now_expired); cbn [final_state].
    + unfold _queue_refresh.
      destruct (negb false && _).
      { split; [left; exact Hq|]. intros _. auto. }
      destruct (bool_decide (credential_identifier ∈ _queued_credentials s))
        eqn:Hin.
      { split; [left; exact Hq|]. intros _. auto. }
      apply bool_decide_eq_false in Hin. split.
      * right. unfold _ensure_queue_processor_running. cbn.
        destruct (negb (_queue_processor_running s)); cbn; now rewrite Hq.
      * intros Hqueued. exfalso. apply Hin. now rewrite Hqd.
    + split; [left; exact Hq|]. intros _. auto.
  - destruct e; cbn [final_state]; (split; [left; exact Hq|]; intros _; auto).
  - split; [left; exact Hq|]. intros _. auto.
Qed.

(** ** Base URL *)

(** Whatever [get_api_details] returns, for a file credential as for a
    direct key, the base URL of the pair starts with [http]: a resource
    URL stored without a scheme is given [https://]. *)
Theorem get_api_details_url_scheme (environ : gmap string string)
    (float : string -> option Q)
    (initialize_token : QwenAuthBase -> string -> outcome Creds)
    (st st' : QwenAuthBase) (credential_identifier : string)
    (now_load now_expired : Q) (env : RefreshEnv)
    (base_url : string) (token : option string) :
  get_api_details environ float initialize_token st credential_identifier
    now_load now_expired env
  = Returned (base_url, token) st' ->
  PyStr.startswith "http" base_url = true.
Proof.
  unfold get_api_details.
  destruct (bool_decide (is_Some (fs st !! credential_identifier)));
    [|intros H; inversion H; subst; reflexivity].
  destruct (_load_credentials environ float st credential_identifier now_load)
    as [c s|e s|s]; cbn [bind]; try discriminate.
  destruct (if _is_token_expired c now_expired
            then _refresh_token initialize_token s credential_identifier false env
            else Returned c s) as [c' s'|e s'|s']; cbn [bind]; try discriminate.
  destruct (get_default (resource_url c') (Val "https://portal.qwen.ai/v1"%string))
    as [| |url]; try discriminate.
  destruct (PyStr.startswith "http" url) eqn:Hurl; cbn [negb];
    destruct (access_token c'); try discriminate;
    intros H; inversion H; subst; try exact Hurl; reflexivity.
Qed.

Lemma get_api_details_url_scheme_witness :
  exists st',
    get_api_details ∅ Samples.float Samples.failing_login
      (Samples.cached
         (set_resource_url (Val "portal.qwen.ai/v1"%string)
            (Samples.creds_at 100000000)))
      Samples.path 0 1000 (Samples.world (fun _ => NetworkError))
    = Returned ("https://portal.qwen.ai/v1"%string, Some "access-0"%string) st'
    /\ PyStr.startswith "http" "https://portal.qwen.ai/v1" = true.
Proof.
  eexists. split; [vm_compute; reflexivity|].
  eapply (get_api_details_url_scheme ∅ Samples.float Samples.failing_login
            (Samples.cached
               (set_resource_url (Val "portal.qwen.ai/v1"%string)
                  (Samples.creds_at 100000000)))
            _ Samples.path 0 1000 (Samples.world (fun _ => NetworkError))
            "https://portal.qwen.ai/v1" (Some "access-0"%string)).
  vm_compute. reflexivity.
Defined.

(** ** What a refresh leaves alone *)

Lemma same_elsewhere_refl (path : string) (s : QwenAuthBase) :
  Frame.same_elsewhere path s s.
Proof. unfold Frame.same_elsewhere. auto 10. Qed.

Lemma same_elsewhere_trans (path : string) (s1 s2 s3 : QwenAuthBase) :
  Frame.same_elsewhere path s1 s2 ->
  Frame.same_elsewhere path s2 s3 ->
  Frame.same_elsewhere path s1 s3.
Proof.
  intros (H1 & Hq1 & Hd1 & Hu1 & Ht1 & Hr1) (H2 & Hq2 & Hd2 & Hu2 & Ht2 & Hr2).
  unfold Frame.same_elsewhere.
  split; [|repeat split; congruence].
  intros p Hp. destruct (H1 p Hp) as (A1 & B1 & C1 & D1).
  destruct (H2 p Hp) as (A2 & B2 & C2 & D2).
  repeat split; congruence.
Qed.

Lemma same_elsewhere_locks (path : string) (s : QwenAuthBase) (held : gset string) :
  Frame.same_elsewhere path s (set_refresh_locks_held held s).
Proof. unfold Frame.same_elsewhere. cbn. auto 10. Qed.

Lemma same_elsewhere_store (path : string) (s : QwenAuthBase) (c : Creds) :
  Frame.same_elsewhere path s (store s path c).
Proof.
  unfold Frame.same_elsewhere. cbn. split; [|auto 10].
  intros p Hp. rewrite lookup_insert_ne by congruence. auto.
Qed.

Lemma same_elsewhere_record_failure (path : string) (s : QwenAuthBase) (now : Q) :
  Frame.same_elsewhere path s (record_failure s path now).
Proof.
  unfold Frame.same_elsewhere. cbn. split; [|auto 10].
  intros p Hp. rewrite !lookup_insert_ne by congruence. auto.
Qed.

Lemma same_elsewhere_clear_failures (path : string) (s : QwenAuthBase) :
  Frame.same_elsewhere path s (clear_failures s path).
Proof.
  unfold Frame.same_elsewhere. cbn. split; [|auto 10].
  intros p Hp. rewrite !lookup_delete_ne by congruence. auto.
Qed.

Lemma same_elsewhere_save (path : string) (s : QwenAuthBase) (c : Creds)
    (w : WriteAnswer) :
  Frame.same_elsewhere path s (final_state (_save_credentials s path c w)).
Proof.
  unfold _save_credentials. destruct (from_env c).
  - apply same_elsewhere_store.
  - destruct w; [|apply same_elsewhere_refl].
    unfold Frame.same_elsewhere. cbn. split; [|auto 10].
    intros p Hp. rewrite !lookup_insert_ne by congruence. auto.
Qed.

Lemma same_elsewhere_read (path : string) (s : QwenAuthBase) :
  Frame.same_elsewhere path s (final_state (_read_creds_from_file s path)).
Proof.
  unfold _read_creds_from_file.
  destruct (fs s !! path) as [[c|]|]; try apply same_elsewhere_refl.
  apply same_elsewhere_store.
Qed.

Ltac peel_frame :=
  cbn [final_state];
  repeat first
    [ apply same_elsewhere_refl
    | eapply same_elsewhere_trans; [|apply same_elsewhere_store]
    | eapply same_elsewhere_trans; [|apply same_elsewhere_clear_failures] ].

Lemma same_elsewhere_apply_token_data (path : string) (s : QwenAuthBase)
    (c : Creds) (d : TokenData) (env : RefreshEnv) :
  Frame.same_elsewhere path s (final_state (apply_token_data s path c d env)).
Proof.
  unfold apply_token_data. cbv zeta.
  destruct (td_access_token d); try solve [peel_frame];
    (destruct (refresh_token _); try solve [peel_frame]);
    (destruct (td_expires_in d); try solve [peel_frame]);
    (match goal with
     | |- context [if ?b then _ else _] => destruct b
     end; try solve [peel_frame]);
    (match goal with
     | |- context [_save_credentials ?s0 path ?c0 ?w0] =>
         pose proof (same_elsewhere_save path s0 c0 w0) as Hsave;
         destruct (_save_credentials s0 path c0 w0) as [u s1|e s1|s1];
         cbn [bind final_state] in *;
         (eapply same_elsewhere_trans; [|exact Hsave]);
         peel_frame
     end).
Qed.

Lemma same_elsewhere_after_loop
    (initialize_token : QwenAuthBase -> string -> outcome Creds)
    (path : string) (env : RefreshEnv) (s : QwenAuthBase) (c : Creds) :
  (forall s, Frame.same_elsewhere path s (final_state (initialize_token s path))) ->
  Frame.same_elsewhere path s
    (final_state
       (if negb (truthy (get (refresh_token c)))
        then Raised ValueError s
        else
          match retry_loop (answers env) (seq 0 max_retries) None with
          | LoopRaise e => Raised e s
          | LoopEnd new_token_data last_error needs_reauth =>
              if needs_reauth then
                match initialize_token s path with
                | Returned new_creds st =>
                    Returned new_creds (clear_failures st path)
                | Raised _ st =>
                    Raised ValueError (record_failure st path (now_backoff env))
                | Blocked st => Blocked st
                end
              else
                match new_token_data with
                | None =>
                    Raised (default Exception_ last_error)
                      (record_failure s path (now_backoff env))
                | Some JOther => Raised TypeError s
                | Some (JObject d) => apply_token_data s path c d env
                end
          end)).
Proof.
  intros Hinit.
  destruct (negb (truthy (get (refresh_token c))));
    [apply same_elsewhere_refl|].
  destruct (retry_loop (answers env) (seq 0 max_retries) None)
    as [data last_error [|]|e]; [| |apply same_elsewhere_refl].
  - pose proof (Hinit s) as Hi.
    destruct (initialize_token s path) as [n s1|e s1|s1];
      cbn [final_state] in *.
    + eapply same_elsewhere_trans; [exact Hi|].
      apply same_elsewhere_clear_failures.
    + eapply same_elsewhere_trans; [exact Hi|].
      apply same_elsewhere_record_failure.
    + exact Hi.
  - destruct data as [[d|]|]; cbn [final_state].
    + apply same_elsewhere_apply_token_data.
    + apply same_elsewhere_refl.
    + apply same_elsewhere_record_failure.
Qed.

(** A refresh of one credential, however it ends, leaves the cache entry,
    the file, the failure counter and the backoff timer of every other
    path as they were, and does not touch the refresh queue nor its two
    sets, as long as the re-authentication it may start does the same. *)
Theorem refresh_touches_one_credential
    (initialize_token : QwenAuthBase -> string -> outcome Creds)
    (st : QwenAuthBase) (path : string) (force : bool) (env : RefreshEnv) :
  (forall s, Frame.same_elsewhere path s (final_state (initialize_token s path))) ->
  Frame.same_elsewhere path st
    (final_state (_refresh_token initialize_token st path force env)).
Proof.
  intros Hinit. unfold _refresh_token, with_lock.
  destruct (bool_decide (path ∈ _refresh_locks_held st));
    [apply same_elsewhere_refl|].
  assert (Hbody : forall s, Frame.same_elsewhere path s
                    (final_state
                       (refresh_token_locked initialize_token path force env s))).
  { intros s. unfold refresh_token_locked.
    destruct (_credentials_cache s !! path) as [c|].
    - destruct (negb force && nonempty c
                && negb (_is_token_expired c (now_check env)));
        [apply same_elsewhere_refl|].
      cbn [bind].
      apply same_elsewhere_after_loop, Hinit.
    - pose proof (same_elsewhere_read path s) as Hread.
      destruct (_read_creds_from_file s path) as [c s0|e s0|s0];
        cbn [bind final_state] in *; [|exact Hread|exact Hread].
      eapply same_elsewhere_trans; [exact Hread|].
      apply same_elsewhere_after_loop, Hinit. }
  specialize (Hbody (acquire path st)).
  assert (Hacq : Frame.same_elsewhere path st (acquire path st))
    by apply same_elsewhere_locks.
  destruct (refresh_token_locked initialize_token path force env (acquire path st))
    as [n s|e s|s]; cbn [final_state] in *.
  - eapply same_elsewhere_trans; [exact Hacq|].
    eapply same_elsewhere_trans; [exact Hbody|apply same_elsewhere_locks].
  - eapply same_elsewhere_trans; [exact Hacq|].
    eapply same_elsewhere_trans; [exact Hbody|apply same_elsewhere_locks].
  - eapply same_elsewhere_trans; [exact Hacq|]. exact Hbody.
Qed.

Lemma refresh_touches_one_credential_witness :
  Frame.same_elsewhere Samples.path
    (Samples.cached (Samples.creds_at 0))
    (final_state
       (_refresh_token Samples.failing_login
          (Samples.cached (Samples.creds_at 0)) Samples.path false
          (Samples.world (fun _ => StatusError 401 (Some 60))))).
Proof.
  apply (refresh_touches_one_credential Samples.failing_login
           (Samples.cached (Samples.creds_at 0)) Samples.path false
           (Samples.world (fun _ => StatusError 401 (Some 60)))).
  intros s. apply same_elsewhere_refl.
Defined.

(** ** What a refresh writes and returns *)

(** What [apply_token_data] does to the files: nothing, unless it returns,
    and then the file of the path holds the credential returned, which
    was not loaded from the environment. *)
Lemma apply_token_data_file (s : QwenAuthBase) (path : string) (c : Creds)
    (d : TokenData) (env : RefreshEnv) :
  fs (final_state (apply_token_data s path c d env)) = fs s
  \/ exists new s',
       apply_token_data s path c d env = Returned new s'
       /\ from_env new = false
       /\ fs s' = <[path := Some new]> (fs s)
       /\ _credentials_cache s' !! path = Some new.
Proof.
  unfold apply_token_data. cbv zeta.
  destruct (td_access_token d); try (left; reflexivity);
    (destruct (refresh_token _); try (left; reflexivity));
    (destruct (td_expires_in d); try (left; reflexivity));
    (match goal with
     | |- context [if ?b then _ else _] => destruct b
     end; try (left; reflexivity));
    unfold _save_credentials;
    (match goal with
     | |- context [from_env ?x] => destruct (from_env x) eqn:Henv
     end; try (left; reflexivity));
    (destruct (write env); try (left; reflexivity));
    right; eexists; eexists; (split; [reflexivity|]);
    (split; [exact Henv|]); cbn; rewrite lookup_insert_eq; auto.
Qed.

Lemma release_fs (path : string) (s : QwenAuthBase) :
  fs (release path s) = fs s.
Proof. reflexivity. Qed.

(** Apart from what a re-authentication writes, a refresh writes at most
    one file, the one of its path, and only when it returns: the file
    then holds the credential returned, which is also the one cached
    under the path and was not loaded from the environment.  A refresh
    that raises or blocks, and a refresh of a credential loaded from the
    environment, write nothing. *)
Theorem refresh_writes_only_what_it_returns
    (initialize_token : QwenAuthBase -> string -> outcome Creds)
    (st : QwenAuthBase) (path : string) (force : bool) (env : RefreshEnv) :
  (forall s, fs (final_state (initialize_token s path)) = fs s) ->
  fs (final_state (_refresh_token initialize_token st path force env)) = fs st
  \/ exists new st',
       _refresh_token initialize_token st path force env = Returned new st'
       /\ from_env new = false
       /\ fs st' = <[path := Some new]> (fs st)
       /\ _credentials_cache st' !! path = Some new.
Proof.
  intros Hinit.
  assert (Hloop : forall s c,
    fs (final_state
          (if negb (truthy (get (refresh_token c)))
           then Raised ValueError s
           else
             match retry_loop (answers env) (seq 0 max_retries) None with
             | LoopRaise e => Raised e s
             | LoopEnd new_token_data last_error needs_reauth =>
                 if needs_reauth then
                   match initialize_token s path with
                   | Returned new_creds st =>
                       Returned new_creds (clear_failures st path)
                   | Raised _ st =>
                       Raised ValueError
                         (record_failure st path (now_backoff env))
                   | Blocked st => Blocked st
                   end
                 else
                   match new_token_data with
                   | None =>
                       Raised (default Exception_ last_error)
                         (record_failure s path (now_backoff env))
                   | Some JOther => Raised TypeError s
                   | Some (JObject d) => apply_token_data s path c d env
                   end
             end)) = fs s
    \/ exists d, negb (truthy (get (refresh_token c))) = false
         /\ (exists last_error,
               retry_loop (answers env) (seq 0 max_retries) None
               = LoopEnd (Some (JObject d)) last_error false)
         /\ exists new s',
              apply_token_data s path c d env = Returned new s'
              /\ from_env new = false
              /\ fs s' = <[path := Some new]> (fs s)
              /\ _credentials_cache s' !! path = Some new).
  { intros s c.
    destruct (negb (truthy (get (refresh_token c)))); [left; reflexivity|].
    destruct (retry_loop (answers env) (seq 0 max_retries) None)
      as [data last_error [|]|e]; [| |left; reflexivity].
    - left. pose proof (Hinit s) as Hi.
      destruct (initialize_token s path); exact Hi.
    - destruct data as [[d|]|]; try (left; reflexivity).
      destruct (apply_token_data_file s path c d env) as [H|H];
        [left; exact H|].
      right. exists d. split; [reflexivity|]. split; [eauto|exact H]. }
  unfold _refresh_token, with_lock.
  destruct (bool_decide (path ∈ _refresh_locks_held st));
    [left; reflexivity|].
  unfold refresh_token_locked.
  destruct (_credentials_cache (acquire path st) !! path) as [c|] eqn:Hc.
  - destruct (negb force && nonempty c
              && negb (_is_token_expired c (now_check env)));
      [left; reflexivity|].
    cbn [bind].
    destruct (Hloop (acquire path st) c)
      as [H|(d & Hr & (le & Hl) & new & s' & Ha & Hn & Hf & Hk)].
    + left.
      match goal with
      | |- fs (final_state (match ?o with _ => _ end)) = _ =>
          destruct o; exact H
      end.
    + right. rewrite Hr, Hl, Ha. exists new, (release path s').
      repeat split; auto.
  - unfold _read_creds_from_file.
    change (fs (acquire path st)) with (fs st).
    destruct (fs st !! path) as [[c|]|]; try (left; reflexivity).
    cbn [bind].
    change (set_credentials_cache
              (<[path:=c]> (_credentials_cache (acquire path st)))
              (acquire path st))
      with (store (acquire path st) path c).
    destruct (Hloop (store (acquire path st) path c) c)
      as [H|(d & Hr & (le & Hl) & new & s' & Ha & Hn & Hf & Hk)].
    + left.
      match goal with
      | |- fs (final_state (match ?o with _ => _ end)) = _ =>
          destruct o; exact H
      end.
    + right.
      rewrite Hr, Hl, Ha. exists new, (release path s').
      repeat split; auto.
Qed.

Lemma refresh_writes_only_what_it_returns_witness :
  fs (final_state
        (_refresh_token Samples.failing_login
           (Samples.cached (Samples.creds_at 0)) Samples.path false
           (Samples.world
              (fun _ => OkJson (Some (JObject (Samples.token (Val "access-1") 20000)))))))
  = fs (Samples.cached (Samples.creds_at 0))
  \/ exists new st',
       _refresh_token Samples.failing_login
         (Samples.cached (Samples.creds_at 0)) Samples.path false
         (Samples.world
            (fun _ => OkJson (Some (JObject (Samples.token (Val "access-1") 20000)))))
       = Returned new st'
       /\ from_env new = false
       /\ fs st' = <[Samples.path := Some new]> (fs (Samples.cached (Samples.creds_at 0)))
       /\ _credentials_cache st' !! Samples.path = Some new.
Proof.
  apply (refresh_writes_only_what_it_returns Samples.failing_login
           (Samples.cached (Samples.creds_at 0)) Samples.path false
           (Samples.world
              (fun _ => OkJson (Some (JObject (Samples.token (Val "access-1") 20000)))))).
  intros s. reflexivity.
Defined.

(** When the token endpoint answers with a usable token but the file
    cannot be written, the refresh raises [IOError] with the file left as
    it was, and yet the credential cached under the path already carries
    the new access token and the new expiry, and the failure counter and
    the backoff timer of the path are cleared: the cached dictionary is
    the object the refresh assigns to. *)
Theorem refresh_write_failure_keeps_new_token_cached
    (initialize_token : QwenAuthBase -> string -> outcome Creds)
    (st : QwenAuthBase) (path : string) (force : bool) (env : RefreshEnv)
    (c : Creds) (d : TokenData) (last_error : option exn)
    (access : string) (expires_in : Q) :
  path ∉ _refresh_locks_held st ->
  _credentials_cache st !! path = Some c ->
  negb force && nonempty c && negb (_is_token_expired c (now_check env)) = false ->
  truthy (get (refresh_token c)) = true ->
  from_env c = false ->
  retry_loop (answers env) (seq 0 max_retries) None
  = LoopEnd (Some (JObject d)) last_error false ->
  td_access_token d = Val access ->
  access <> EmptyString ->
  truthy (get (get_default (td_refresh_token d) (refresh_token c))) = true ->
  td_expires_in d = Some expires_in ->
  write env = WriteFails ->
  exists new st',
    _refresh_token initialize_token st path force env = Raised IOError st'
    /\ _credentials_cache st' !! path = Some new
    /\ access_token new = Val access
    /\ expiry_date new = Some ((now_expiry env + expires_in) * 1000)%Q
    /\ fs st' = fs st
    /\ _refresh_failures st' !! path = None
    /\ _next_refresh_after st' !! path = None.
Proof.
  intros Hfree Hc Hfresh Hrt Henv Hloop Ha Hne Hrt' Hexp Hw.
  unfold _refresh_token, with_lock.
  rewrite bool_decide_eq_false_2 by exact Hfree.
  unfold refresh_token_locked.
  change (_credentials_cache (acquire path st)) with (_credentials_cache st).
  rewrite Hc, Hfresh. cbn [bind]. rewrite Hrt, Hloop. cbn [negb].
  unfold apply_token_data. rewrite Ha, Hexp. cbv zeta.
  change (refresh_token (set_access_token (Val access) c))
    with (refresh_token c).
  destruct (refresh_token c) as [| |r] eqn:Hr; try discriminate.
  assert (Haccess : truthy (get (Val access)) = true).
  { cbn. apply negb_true_iff, String.eqb_neq. exact Hne. }
  cbn [access_token refresh_token set_proxy_metadata set_resource_url
       set_expiry_date set_refresh_token set_access_token].
  rewrite Haccess, Hrt'. cbn [negb orb].
  unfold _save_credentials.
  match goal with
  | |- context [from_env ?x] =>
      assert (Hf : from_env x = false)
  end.
  { revert Henv. unfold from_env. cbn.
    destruct (_proxy_metadata c); cbn; auto. }
  rewrite Hf, Hw. cbn [bind].
  eexists. eexists. split; [reflexivity|].
  cbn. rewrite lookup_insert_eq, !lookup_delete_eq. auto 10.
Qed.

Lemma refresh_write_failure_keeps_new_token_cached_witness :
  exists new st',
    _refresh_token Samples.failing_login
      (Samples.cached (Samples.creds_at 0)) Samples.path false
      {| now_check := 1000;
         answers := fun _ => OkJson (Some (JObject (Samples.token (Val "access-1") 20000)));
         now_backoff := 1000; now_expiry := 1000; now_stamp := 1000;
         write := WriteFails |}
    = Raised IOError st'
    /\ _credentials_cache st' !! Samples.path = Some new
    /\ access_token new = Val "access-1"
    /\ expiry_date new = Some ((1000 + 20000) * 1000)%Q
    /\ fs st' = fs (Samples.cached (Samples.creds_at 0))
    /\ _refresh_failures st' !! Samples.path = None
    /\ _next_refresh_after st' !! Samples.path = None.
Proof.
  apply (refresh_write_failure_keeps_new_token_cached Samples.failing_login
           (Samples.cached (Samples.creds_at 0)) Samples.path false
           {| now_check := 1000;
              answers := fun _ => OkJson (Some (JObject (Samples.token (Val "access-1") 20000)));
              now_backoff := 1000; now_expiry := 1000; now_stamp := 1000;
              write := WriteFails |}
           (Samples.creds_at 0) (Samples.token (Val "access-1") 20000) None
           "access-1" 20000).
  - cbn. apply not_elem_of_empty.
  - cbn. apply lookup_insert_eq.
  - vm_compute. reflexivity.
  - reflexivity.
  - reflexivity.
  - reflexivity.
  - reflexivity.
  - discriminate.
  - reflexivity.
  - reflexivity.
  - reflexivity.
Defined.

Lemma truthy_get (f : field string) : truthy (get f) = truthy f.
Proof. destruct f; reflexivity. Qed.

(** A refresh through a token response returns the cached dictionary with
    the access token of the response, the refresh token of the response
    or else the one it had, the resource URL of the response or else the
    one it had, and every key the refresh does not know as it was; the
    two tokens of what it returns are never empty, and what it returns is
    what the cache then holds under the path. *)
Theorem refresh_merges_token_response
    (initialize_token : QwenAuthBase -> string -> outcome Creds)
    (st st' : QwenAuthBase) (path : string) (force : bool) (env : RefreshEnv)
    (c new : Creds) (d : TokenData) (last_error : option exn) :
  _credentials_cache st !! path = Some c ->
  negb force && nonempty c && negb (_is_token_expired c (now_check env)) = false ->
  retry_loop (answers env) (seq 0 max_retries) None
  = LoopEnd (Some (JObject d)) last_error false ->
  _refresh_token initialize_token st path force env = Returned new st' ->
  access_token new = td_access_token d
  /\ refresh_token new = get_default (td_refresh_token d) (refresh_token c)
  /\ resource_url new = get_default (td_resource_url d) (get (resource_url c))
  /\ extras new = extras c
  /\ from_env new = from_env c
  /\ truthy (access_token new) = true
  /\ truthy (refresh_token new) = true
  /\ _credentials_cache st' !! path = Some new.
Proof.
  intros Hc Hfresh Hloop. unfold _refresh_token, with_lock.
  destruct (bool_decide (path ∈ _refresh_locks_held st)); [discriminate|].
  unfold refresh_token_locked.
  change (_credentials_cache (acquire path st)) with (_credentials_cache st).
  rewrite Hc, Hfresh. cbn [bind].
  destruct (negb (truthy (get (refresh_token c)))); [discriminate|].
  rewrite Hloop. unfold apply_token_data, _save_credentials. cbv zeta.
  destruct (td_access_token d) as [| |a] eqn:Ha; try discriminate;
    (change (refresh_token (set_access_token _ c)) with (refresh_token c));
    (destruct (refresh_token c) as [| |r] eqn:Hr; try discriminate);
    (destruct (td_expires_in d); try discriminate);
    cbn [access_token refresh_token set_proxy_metadata set_resource_url
         set_expiry_date set_refresh_token set_access_token];
    (match goal with
     | |- context [if negb (truthy ?x) || negb (truthy ?y) then _ else _] =>
         destruct (truthy x) eqn:Hx; destruct (truthy y) eqn:Hy;
         cbn [negb orb]; try discriminate
     end);
    (match goal with
     | |- context [from_env ?x] => destruct (from_env x) eqn:Hf
     end);
    try (destruct (write env)); cbn [bind]; try discriminate;
    intros H; inversion H; subst; clear H;
    rewrite truthy_get in Hx, Hy;
    revert Hx Hy Hf; unfold from_env; cbn;
    rewrite ?lookup_insert_eq;
    destruct (_proxy_metadata c); cbn; intros; repeat split; auto.
Qed.

Lemma refresh_merges_token_response_witness :
  exists new st',
    _refresh_token Samples.failing_login
      (Samples.cached (Samples.creds_at 0)) Samples.path false
      (Samples.world
         (fun _ => OkJson (Some (JObject (Samples.token (Val "access-1") 20000)))))
    = Returned new st'
    /\ access_token new = Val "access-1"
    /\ refresh_token new = Val "refresh-0"
    /\ resource_url new = Null
    /\ extras new = ∅
    /\ from_env new = false
    /\ truthy (access_token new) = true
    /\ truthy (refresh_token new) = true
    /\ _credentials_cache st' !! Samples.path = Some new.
Proof.
  destruct (_refresh_token Samples.failing_login
              (Samples.cached (Samples.creds_at 0)) Samples.path false
              (Samples.world
                 (fun _ => OkJson (Some (JObject (Samples.token (Val "access-1") 20000))))))
    as [new st'|e st'|st'] eqn:Hr.
  - exists new, st'. split; [reflexivity|].
    apply (refresh_merges_token_response Samples.failing_login
             (Samples.cached (Samples.creds_at 0)) st' Samples.path false
             (Samples.world
                (fun _ => OkJson (Some (JObject (Samples.token (Val "access-1") 20000)))))
             (Samples.creds_at 0) new
             (Samples.token (Val "access-1") 20000) None).
    + cbn. apply lookup_insert_eq.
    + vm_compute. reflexivity.
    + reflexivity.
    + exact Hr.
  - vm_compute in Hr. discriminate.
  - vm_compute in Hr. discriminate.
Defined.

(** ** The coordinator of re-authentications, continued *)

Lemma both_waiting_reachable : Reauth.reachable ReauthSamples.both_waiting.
Proof. exists ReauthSamples.arrivals. vm_compute. reflexivity. Qed.

Lemma flow_running_reachable : Reauth.reachable ReauthSamples.flow_running.
Proof.
  exists (ReauthSamples.arrivals ++ [Reauth.Enter 1]). vm_compute. reflexivity.
Qed.

Lemma one_flow_at_a_time_witness :
  (size (Reauth.live ReauthSamples.flow_running) <= 1)%nat.
Proof.
  apply (one_flow_at_a_time ReauthSamples.flow_running).
  exact flow_running_reachable.
Defined.

Lemma no_call_joins_witness :
  Reauth.calls ReauthSamples.flow_running !! 2%nat
  ≠ Some ("QWEN_CODE:qwen_code_oauth_1.json"%string, Reauth.Joined 0).
Proof.
  apply (no_call_joins ReauthSamples.flow_running 2
           "QWEN_CODE:qwen_code_oauth_1.json" 0).
  exact flow_running_reachable.
Defined.

Lemma enter_starts_flow_witness :
  Reauth.next_task ReauthSamples.flow_running
  = S (Reauth.next_task ReauthSamples.both_waiting)
  /\ Reauth.live ReauthSamples.flow_running
     = {[Reauth.next_task ReauthSamples.both_waiting]}
  /\ exists id,
       Reauth.calls ReauthSamples.flow_running !! 1%nat
       = Some (id, Reauth.Owning (Reauth.next_task ReauthSamples.both_waiting)).
Proof.
  apply (enter_starts_flow ReauthSamples.both_waiting
           ReauthSamples.flow_running 1).
  - exact both_waiting_reachable.
  - vm_compute. reflexivity.
Defined.

Lemma wait_times_out_witness :
  Reauth.answers ReauthSamples.flow_timed_out !! 1%nat
  = Some Reauth.TimeoutError
  /\ Reauth.live ReauthSamples.flow_timed_out = ∅
  /\ Reauth.lock_owner ReauthSamples.flow_timed_out = None.
Proof.
  apply (wait_times_out ReauthSamples.flow_running
           ReauthSamples.flow_timed_out 1).
  - exact flow_running_reachable.
  - vm_compute. reflexivity.
Defined.

(** The registry of active tasks holds an entry only while a call holds
    the lock, and then exactly one: the task that the holder of the lock
    created and is waiting for.  So whoever gets the lock finds the
    registry empty. *)
Theorem registry_holds_only_the_running_flow (s : Reauth.Coordinator)
    (id : string) (t : nat) :
  Reauth.reachable s ->
  Reauth._active_reauth_tasks s !! id = Some t ->
  (exists c, Reauth.lock_owner s = Some c
             /\ Reauth.calls s !! c = Some (id, Reauth.Owning t))
  /\ Reauth._active_reauth_tasks s = {[id := t]}.
Proof.
  intros Hreach Hid.
  destruct (reachable_invariant s Hreach) as (_ & _ & Hlock).
  destruct (Reauth.lock_owner s) as [o|].
  - destruct Hlock as (id0 & t0 & Ho & Htasks & _).
    rewrite Htasks in Hid. apply lookup_singleton_Some in Hid.
    destruct Hid as [-> ->]. split; [|exact Htasks].
    exists o. split; [reflexivity|exact Ho].
  - destruct Hlock as (Htasks & _). rewrite Htasks, lookup_empty in Hid.
    discriminate.
Qed.

Lemma registry_holds_only_the_running_flow_witness :
  (exists c, Reauth.lock_owner ReauthSamples.flow_running = Some c
             /\ Reauth.calls ReauthSamples.flow_running !! c
                = Some ("QWEN_CODE:qwen_code_oauth_1.json"%string, Reauth.Owning 0))
  /\ Reauth._active_reauth_tasks ReauthSamples.flow_running
     = {["QWEN_CODE:qwen_code_oauth_1.json"%string := 0%nat]}.
Proof.
  apply (registry_holds_only_the_running_flow ReauthSamples.flow_running
           "QWEN_CODE:qwen_code_oauth_1.json" 0).
  - exact flow_running_reachable.
  - vm_compute. reflexivity.
Defined.

(** Splitting at slashes a text [a/b]: the pieces of [b] come last. *)
Lemma split_slash_app (cur a b : string) :
  exists l, PyStr.split_scan "/" 0 cur (a +:+ "/" +:+ b)
            = l ++ PyStr.split_scan "/" 0 EmptyString b.
Proof.
  revert cur. induction a as [|c a IH]; intros cur.
  - exists [cur]. reflexivity.
  - rewrite app_cons. cbn [PyStr.split_scan].
    destruct (PyStr.startswith "/" (String c (a +:+ "/" +:+ b))).
    + cbn [String.length Nat.sub]. destruct (IH EmptyString) as [l Hl].
      exists (cur :: l). now rewrite Hl.
    + apply IH.
Qed.

(** The identifier of a re-authentication names the provider and the file,
    not the directory: for a file name that holds no slash and is neither
    empty nor a dot, [execute_reauth] on [dir/name] works under
    [provider:name], whatever [dir] is.  Two credential files of the same
    name in different directories therefore share an identifier. *)
Theorem reauth_id_ignores_directory (dir name provider_name : string) :
  PyStr.contains "/" name = false ->
  name <> EmptyString ->
  name <> "."%string ->
  Reauth.reauth_id (dir +:+ "/" +:+ name) provider_name
  = provider_name +:+ ":" +:+ name.
Proof.
  intros Hfree Hne Hdot. unfold Reauth.reauth_id, Reauth.path_name.
  assert (Hnonempty : String.eqb (dir +:+ "/" +:+ name) EmptyString = false).
  { apply String.eqb_neq. destruct dir; discriminate. }
  rewrite Hnonempty. unfold PyStr.split.
  destruct (split_slash_app EmptyString dir name) as [l Hl]. rewrite Hl.
  rewrite split_slash_none by exact Hfree.
  change (EmptyString +:+ name) with name.
  rewrite filter_app, filter_cons_True by (split; assumption).
  rewrite filter_nil, last_snoc. reflexivity.
Qed.

Lemma reauth_id_ignores_directory_witness :
  Reauth.reauth_id ("/home/user/oauth_creds" +:+ "/" +:+ "qwen_code_oauth_1.json") "QWEN_CODE"
  = "QWEN_CODE" +:+ ":" +:+ "qwen_code_oauth_1.json".
Proof.
  apply (reauth_id_ignores_directory "/home/user/oauth_creds"
           "qwen_code_oauth_1.json" "QWEN_CODE").
  - reflexivity.
  - discriminate.
  - discriminate.
Defined.

(** ** When a refresh re-authenticates *)

(** The retry loop asks for a re-authentication only after an answer with
    status 401 or 403. *)
Lemma retry_loop_reauth (answers : nat -> HttpAnswer) (attempts : list nat)
    (previous : option exn) (data : option JsonBody) (last_error : option exn) :
  retry_loop answers attempts previous = LoopEnd data last_error true ->
  exists attempt code retry_after,
    attempt ∈ attempts
    /\ answers attempt = StatusError code retry_after
    /\ (code = 401 \/ code = 403).
Proof.
  revert previous. induction attempts as [|a rest IH]; intros previous;
    cbn [retry_loop]; [discriminate|].
  assert (Hrest : forall e,
             retry_loop answers rest e = LoopEnd data last_error true ->
             exists attempt code retry_after,
               attempt ∈ a :: rest
               /\ answers attempt = StatusError code retry_after
               /\ (code = 401 \/ code = 403)).
  { intros e He. destruct (IH e He) as (i & code & r & Hi & Hans & Hcode).
    exists i, code, r. split; [now apply list_elem_of_further|auto]. }
  destruct (answers a) as [body| |code r|] eqn:Ha; try discriminate.
  - destruct ((code =? 401) || (code =? 403)) eqn:E.
    + intros _. exists a, code, r. split; [apply list_elem_of_here|].
      split; [exact Ha|]. apply orb_true_iff in E.
      destruct E as [E|E]; apply Z.eqb_eq in E; auto.
    + destruct (code =? 429).
      * destruct r; [|discriminate].
        destruct (a <? max_retries - 1)%nat; [apply Hrest|discriminate].
      * destruct ((500 <=? code) && (code <? 600)); [|discriminate].
        destruct (a <? max_retries - 1)%nat; [apply Hrest|discriminate].
  - destruct (a <? max_retries - 1)%nat; [apply Hrest|discriminate].
Qed.

(** A refresh starts a re-authentication only when the token endpoint has
    answered one of its three attempts with status 401 or 403: without
    such an answer the refresh is the same whatever [initialize_token]
    would do, so the interactive flow is not entered on network errors,
    rate limits, server errors or malformed answers. *)
Theorem refresh_reauth_only_after_401_403
    (initialize_token initialize_token' : QwenAuthBase -> string -> outcome Creds)
    (st : QwenAuthBase) (path : string) (force : bool) (env : RefreshEnv) :
  (forall attempt retry_after,
      (attempt < max_retries)%nat ->
      answers env attempt <> StatusError 401 retry_after
      /\ answers env attempt <> StatusError 403 retry_after) ->
  _refresh_token initialize_token st path force env
  = _refresh_token initialize_token' st path force env.
Proof.
  intros Hans. unfold _refresh_token, with_lock, refresh_token_locked.
  destruct (retry_loop (answers env) (seq 0 max_retries) None)
    as [data last_error [|]|e] eqn:Hloop; [|reflexivity|reflexivity].
  exfalso.
  destruct (retry_loop_reauth _ _ _ _ _ Hloop) as (i & code & r & Hi & Ha & Hcode).
  apply elem_of_seq in Hi. destruct (Hans i r) as [H401 H403]; [lia|].
  destruct Hcode as [-> | ->]; contradiction.
Qed.

Lemma refresh_reauth_only_after_401_403_witness :
  _refresh_token Samples.failing_login
    (Samples.cached (Samples.creds_at 0)) Samples.path false
    (Samples.world (fun _ => StatusError 500 (Some 60)))
  = _refresh_token (fun st _ => Returned (Samples.creds_at 0) st)
      (Samples.cached (Samples.creds_at 0)) Samples.path false
      (Samples.world (fun _ => StatusError 500 (Some 60))).
Proof.
  apply (refresh_reauth_only_after_401_403 Samples.failing_login
           (fun st _ => Returned (Samples.creds_at 0) st)
           (Samples.cached (Samples.creds_at 0)) Samples.path false
           (Samples.world (fun _ => StatusError 500 (Some 60)))).
  intros attempt retry_after _. split; discriminate.
Defined.

(** ** The refresh queue *)





(** ** The worker at rest *)

(** When the worker finds the queue empty it stops, and with it goes
    every mark it left behind: each credential is available again, and a
    request for a re-authentication of any path, even one that was still
    in the queued set, is put on the queue and starts the worker anew. *)
Theorem worker_idle_timeout_resets_queue (environ : gmap string string)
    (float : string -> option Q)
    (initialize_token : QwenAuthBase -> string -> outcome Creds)
    (st : QwenAuthBase) (now now_load : Q) (env : RefreshEnv)
    (path : string) (force : bool) (now' now_marked : Q) :
  _refresh_queue st = [] ->
  let st' :=
    turn_state
      (process_refresh_queue_turn environ float initialize_token st now
         now_load env) in
  (forall p t, is_credential_available st' p t = (true, st'))
  /\ _queue_processor_running st' = false
  /\ _refresh_queue (_queue_refresh st' path force true now' now_marked)
     = [(path, force, true)]
  /\ _queue_processor_running
       (_queue_refresh st' path force true now' now_marked) = true
  /\ _unavailable_credentials
       (_queue_refresh st' path force true now' now_marked)
     = {[path := now_marked]}.
Proof.
  intros Hq. unfold process_refresh_queue_turn. rewrite Hq. cbn.
  split; [|split; [reflexivity|]].
  - intros p t. unfold is_credential_available. cbn.
    now rewrite lookup_empty.
  - unfold _queue_refresh. cbn.
    rewrite bool_decide_eq_false_2 by apply not_elem_of_empty. cbn.
    rewrite Hq. cbn. repeat split; reflexivity.
Qed.

Lemma worker_idle_timeout_resets_queue_witness :
  (forall p t,
      is_credential_available QueueSamples.at_rest p t
      = (true, QueueSamples.at_rest))
  /\ _queue_processor_running QueueSamples.at_rest = false
  /\ _refresh_queue
       (_queue_refresh QueueSamples.at_rest Samples.path false true 71 71)
     = [(Samples.path, false, true)]
  /\ _queue_processor_running
       (_queue_refresh QueueSamples.at_rest Samples.path false true 71 71)
     = true
  /\ _unavailable_credentials
       (_queue_refresh QueueSamples.at_rest Samples.path false true 71 71)
     = {[Samples.path := 71%Q]}.
Proof.
  apply (worker_idle_timeout_resets_queue ∅ Samples.float Samples.failing_login
           QueueSamples.item_taken 70 70
           (Samples.world (fun _ => NetworkError))
           Samples.path false 71 71).
  reflexivity.
Defined.
